(** * Chunk-manifest subsystem of VirtualiZarr

    A shallow embedding of the chunk-manifest core: chunk entries, chunk
    manifests, manifest arrays, the concatenation combiner, whole-chunk
    slicing, and the two reference encodings (nested mapping and columnar
    table) with their deserializers.

    The repository snapshot carries only packaging, CI and an example
    notebook (which calls [open_virtual_dataset], [xr.combine_by_coords] and
    [to_kerchunk] with [format="parquet"]); the core itself is not in the
    snapshot, so every operation below is modelled from the specification. *)

From Stdlib Require Import List String Ascii Arith ZArith Lia Bool.
From Stdlib Require Import Decimal DecimalString DecimalNat.
Import ListNotations.

Open Scope nat_scope.

(** ** Data model (spec section 3) *)

(** A chunk entry: path of the source file, byte offset, byte length. *)
Record ChunkEntry := mkEntry {
  path : string;
  offset : N;
  length : N
}.

(** A manifest cell: a present chunk entry, or [None] for an absent chunk
    (the reader returns the fill value). *)
Definition Cell := option ChunkEntry.

(** A chunk-grid coordinate, one non-negative component per dimension. *)
Definition Coord := list nat.

(** Modelled from the spec: ChunkManifest (section 3 and 4.1), a dense grid
    of cells over [0..grid_size_i) per dimension, exposed through its grid
    size and lookup by coordinate. *)
Record ChunkManifest := mkManifest {
  grid_size : list nat;
  chunk_at : Coord -> Cell
}.

(** Modelled from the spec: a codec of the codec chain (compressor or filter
    id with its parameters). *)
Record Codec := mkCodec {
  codec_id : string;
  codec_config : list (string * string)
}.

(** Modelled from the spec: Encoding (section 3). *)
Record Encoding := mkEncoding {
  dtype : string;
  codecs : list Codec;
  fill_value : Z;
  chunk_shape : list nat
}.

(** Modelled from the spec: ManifestArray (section 3). *)
Record ManifestArray := mkArray {
  shape : list nat;
  encoding : Encoding;
  manifest : ChunkManifest
}.

(** The encoding fields whose disagreement makes two arrays incompatible. *)
Inductive EncodingField := FDtype | FCodecs | FFillValue.

(** Modelled from the spec: the error taxonomy of section 7.  The spec does
    not name the errors for an empty input list or an axis outside the
    arrays' rank; [EmptyInputError] and [AxisError] stand for them. *)
Inductive VZError :=
| ShapeError
| GeometryError
| AlignmentError
| IncompatibleEncodingError (i j : nat) (field : EncodingField)
| PartialChunkAlignmentError (k : nat)
| DimensionSizeMismatchError
| VariableConflictError
| MalformedReferenceError
| UnsupportedOperationError
| EmptyInputError
| AxisError.

(** Fallible operations return a value or raise one error. *)
Inductive result (A : Type) :=
| Ok (x : A)
| Err (e : VZError).
Arguments Ok {A} x.
Arguments Err {A} e.

Definition bind {A B} (m : result A) (f : A -> result B) : result B :=
  match m with
  | Ok x => f x
  | Err e => Err e
  end.

Notation "'let*' x := m 'in' k" := (bind m (fun x => k))
  (at level 200, x name, m at level 100, k at level 200).

(** Raise [e] unless [b] holds. *)
Definition guard (b : bool) (e : VZError) : result unit :=
  if b then Ok tt else Err e.

(** ** List helpers *)

(** [update_nth a v l]: [l] with position [a] set to [v]; no change when
    [a] is out of range. *)
Fixpoint update_nth (a v : nat) (l : list nat) : list nat :=
  match l, a with
  | [], _ => []
  | _ :: t, 0 => v :: t
  | x :: t, S a' => x :: update_nth a' v t
  end.

Definition at_ (a : nat) (l : list nat) : nat := nth a l 0.

Fixpoint coord_eqb (c d : list nat) : bool :=
  match c, d with
  | [], [] => true
  | x :: c', y :: d' => Nat.eqb x y && coord_eqb c' d'
  | _, _ => false
  end.

Fixpoint zcoord_eqb (c d : list Z) : bool :=
  match c, d with
  | [], [] => true
  | x :: c', y :: d' => Z.eqb x y && zcoord_eqb c' d'
  | _, _ => false
  end.

(** All coordinates of a grid, in row-major order. *)
Fixpoint grid_coords (gs : list nat) : list Coord :=
  match gs with
  | [] => [[]]
  | g :: gs' => flat_map (fun i => map (cons i) (grid_coords gs')) (seq 0 g)
  end.

(** ** ChunkManifest (spec 4.1) *)

(** Row-major sequence of [(coordinate, cell)] pairs. *)
Definition manifest_items (m : ChunkManifest) : list (Coord * Cell) :=
  map (fun c => (c, chunk_at m c)) (grid_coords (grid_size m)).

Definition option_eqb {A} (eqA : A -> A -> bool) (x y : option A) : bool :=
  match x, y with
  | Some a, Some b => eqA a b
  | None, None => true
  | _, _ => false
  end.

Definition entry_eqb (e f : ChunkEntry) : bool :=
  String.eqb (path e) (path f) && N.eqb (offset e) (offset f)
  && N.eqb (length e) (length f).

Definition cell_eqb : Cell -> Cell -> bool := option_eqb entry_eqb.

(** The manifest equality test: same grid size, and entry-for-entry equal at
    every grid coordinate. *)
Definition manifest_eqb (m1 m2 : ChunkManifest) : bool :=
  coord_eqb (grid_size m1) (grid_size m2)
  && forallb (fun c => cell_eqb (chunk_at m1 c) (chunk_at m2 c))
       (grid_coords (grid_size m1)).

(** The same test as a proposition. *)
Definition manifest_equiv (m1 m2 : ChunkManifest) : Prop :=
  grid_size m1 = grid_size m2 /\
  forall c, In c (grid_coords (grid_size m1)) -> chunk_at m1 c = chunk_at m2 c.

(** Construction from a coordinate-to-cell mapping (a dict, here an
    association list keyed by integer tuples).  The grid size is read off the
    keys: one more than the largest component on each dimension. *)
Definition Mapping := list (list Z * Cell).

Fixpoint lookup_mapping (m : Mapping) (k : list Z) : Cell :=
  match m with
  | [] => None
  | (k', v) :: m' => if zcoord_eqb k k' then v else lookup_mapping m' k
  end.

Definition inferred_grid (keys : list (list Z)) (rank : nat) : list nat :=
  map (fun i => S (list_max (map (fun k => Z.to_nat (nth i k 0%Z)) keys)))
      (seq 0 rank).

Definition construct_manifest (m : Mapping) : result ChunkManifest :=
  match m with
  | [] => Err ShapeError
  | (k0, _) :: _ =>
      let keys := map fst m in
      let rank := List.length k0 in
      let* _ := guard (forallb (forallb (Z.leb 0)) keys) ShapeError in
      let* _ := guard (forallb (fun k => Nat.eqb (List.length k) rank) keys)
                  ShapeError in
      let gs := inferred_grid keys rank in
      let* _ := guard (forallb (fun c => existsb (zcoord_eqb (map Z.of_nat c)) keys)
                         (grid_coords gs)) ShapeError in
      Ok (mkManifest gs (fun c => lookup_mapping m (map Z.of_nat c)))
  end.

(** ** ManifestArray construction (spec 4.2) *)

Definition ceil_div (s c : nat) : nat := (s + c - 1) / c.

Fixpoint geometry_ok (s c g : list nat) : bool :=
  match s, c, g with
  | [], [], [] => true
  | s1 :: s', c1 :: c', g1 :: g' =>
      Nat.ltb 0 c1 && Nat.eqb g1 (ceil_div s1 c1) && geometry_ok s' c' g'
  | _, _, _ => false
  end.

Definition construct_array (shp : list nat) (enc : Encoding) (man : ChunkManifest)
  : result ManifestArray :=
  if geometry_ok shp (chunk_shape enc) (grid_size man)
  then Ok (mkArray shp enc man)
  else Err GeometryError.

(** Logical extent of the last chunk along one dimension. *)
Definition last_chunk_extent (s c g : nat) : Z :=
  (Z.of_nat s - (Z.of_nat g - 1) * Z.of_nat c)%Z.

(** The geometry invariant in the words of section 3. *)
Definition geometry_invariant (s c g : list nat) : Prop :=
  List.length s = List.length c /\ List.length c = List.length g /\
  forall i, i < List.length s ->
    0 < at_ i c /\
    (0 < last_chunk_extent (at_ i s) (at_ i c) (at_ i g) <= Z.of_nat (at_ i c))%Z.

(** A valid array: one that [construct_array] accepts. *)
Definition valid_array (a : ManifestArray) : Prop :=
  geometry_ok (shape a) (chunk_shape (encoding a)) (grid_size (manifest a)) = true.

(** ** Combiner: concatenation along an axis (spec 4.3) *)

Definition codec_config_eqb (x y : list (string * string)) : bool :=
  (fix go x y :=
     match x, y with
     | [], [] => true
     | (k1, v1) :: x', (k2, v2) :: y' =>
         String.eqb k1 k2 && String.eqb v1 v2 && go x' y'
     | _, _ => false
     end) x y.

Definition codec_eqb (x y : Codec) : bool :=
  String.eqb (codec_id x) (codec_id y)
  && codec_config_eqb (codec_config x) (codec_config y).

Fixpoint codecs_eqb (x y : list Codec) : bool :=
  match x, y with
  | [], [] => true
  | c :: x', d :: y' => codec_eqb c d && codecs_eqb x' y'
  | _, _ => false
  end.

(** The first encoding field on which [e] disagrees with [e0], if any. *)
Definition encoding_mismatch (e0 e : Encoding) : option EncodingField :=
  if negb (String.eqb (dtype e0) (dtype e)) then Some FDtype
  else if negb (codecs_eqb (codecs e0) (codecs e)) then Some FCodecs
  else if negb (Z.eqb (fill_value e0) (fill_value e)) then Some FFillValue
  else None.

(** Step 1: every input [k] is compared with input 0; the first mismatch
    names the pair [(0, k)] and the field. *)
Fixpoint check_encodings (e0 : Encoding) (k : nat) (rest : list ManifestArray)
  : result unit :=
  match rest with
  | [] => Ok tt
  | x :: rest' =>
      match encoding_mismatch e0 (encoding x) with
      | Some f => Err (IncompatibleEncodingError 0 k f)
      | None => check_encodings e0 (S k) rest'
      end
  end.

(** Same rank, and equal on every axis other than [a]. *)
Definition agree_off_axis (a : nat) (l1 l2 : list nat) : bool :=
  Nat.eqb (List.length l1) (List.length l2)
  && forallb (fun i => Nat.eqb i a || Nat.eqb (at_ i l1) (at_ i l2))
       (seq 0 (List.length l1)).

(** Step 2, first half: chunk_shape identical on every axis except [a]. *)
Fixpoint check_chunk_shapes (a : nat) (cs0 : list nat) (k : nat)
  (arrs : list ManifestArray) : result unit :=
  match arrs with
  | [] => Ok tt
  | x :: rest =>
      if agree_off_axis a cs0 (chunk_shape (encoding x))
      then check_chunk_shapes a cs0 (S k) rest
      else Err (PartialChunkAlignmentError k)
  end.

(** The last chunk of [x] along [a] is full. *)
Definition last_chunk_full (a : nat) (x : ManifestArray) : bool :=
  Nat.eqb (at_ a (shape x))
    (at_ a (grid_size (manifest x)) * at_ a (chunk_shape (encoding x))).

(** Step 2, second half: a partial chunk along [a] is allowed only as the
    final chunk of the final input. *)
Fixpoint check_full_last_chunks (a : nat) (k : nat) (arrs : list ManifestArray)
  : result unit :=
  match arrs with
  | [] | [_] => Ok tt
  | x :: rest =>
      if last_chunk_full a x then check_full_last_chunks a (S k) rest
      else Err (PartialChunkAlignmentError k)
  end.

(** Step 4: lookup in the concatenated grid.  Input [k] sits at the chunk
    offset along [a] given by the grid sizes of the inputs before it. *)
Fixpoint locate (a : nat) (ms : list ChunkManifest) (c : Coord) : Cell :=
  match ms with
  | [] => None
  | m :: ms' =>
      if Nat.ltb (at_ a c) (at_ a (grid_size m)) then chunk_at m c
      else locate a ms' (update_nth a (at_ a c - at_ a (grid_size m)) c)
  end.

Definition concat_manifests (a : nat) (m0 : ChunkManifest) (ms : list ChunkManifest)
  : ChunkManifest :=
  mkManifest
    (update_nth a (list_sum (map (fun m => at_ a (grid_size m)) ms)) (grid_size m0))
    (locate a ms).

(** Modelled from the spec: concatenation (section 4.3, steps 1 to 5), in
    the caller's order.  When inputs differ in chunk_shape along [a] (which
    the spec allows) the spec does not say which chunk_shape the result
    carries; the result keeps the first input's encoding. *)
Definition concat (a : nat) (arrs : list ManifestArray) : result ManifestArray :=
  match arrs with
  | [] => Err EmptyInputError
  | x0 :: rest =>
      let* _ := check_encodings (encoding x0) 1 rest in
      let* _ := check_chunk_shapes a (chunk_shape (encoding x0)) 0 arrs in
      let* _ := guard (Nat.ltb a (List.length (chunk_shape (encoding x0)))) AxisError in
      let* _ := check_full_last_chunks a 0 arrs in
      let* _ := guard (forallb (fun x => agree_off_axis a (shape x0) (shape x)) rest)
                  DimensionSizeMismatchError in
      Ok (mkArray
            (update_nth a (list_sum (map (fun x => at_ a (shape x)) arrs)) (shape x0))
            (encoding x0)
            (concat_manifests a (manifest x0) (map manifest arrs)))
  end.

(** Equality of arrays: same shape and encoding, manifests equal under the
    manifest equality test. *)
Definition array_equiv (x y : ManifestArray) : Prop :=
  shape x = shape y /\ encoding x = encoding y /\ manifest_equiv (manifest x) (manifest y).

(** ** Slicing by whole chunks (spec 4.2) *)

Fixpoint zip_with {A B C} (f : A -> B -> C) (l1 : list A) (l2 : list B) : list C :=
  match l1, l2 with
  | x :: l1', y :: l2' => f x y :: zip_with f l1' l2'
  | _, _ => []
  end.

(** A boundary [b] on an axis of size [s] with chunk size [c] is aligned
    when it falls between two chunks or at the end of the array. *)
Definition boundary_aligned (s c b : nat) : bool :=
  Nat.eqb (b mod c) 0 || Nat.eqb b s.

(** Each axis gets an element range [start, stop) within the array, with
    both ends aligned. *)
Fixpoint slice_bounds_ok (shp cs : list nat) (rs : list (nat * nat)) : bool :=
  match shp, cs, rs with
  | [], [], [] => true
  | s :: shp', c :: cs', (st, sp) :: rs' =>
      Nat.leb st sp && Nat.leb sp s
      && boundary_aligned s c st && boundary_aligned s c sp
      && slice_bounds_ok shp' cs' rs'
  | _, _, _ => false
  end.

(** Modelled from the spec: slicing selects a sub-manifest and never
    re-chunks or re-encodes. *)
Definition slice (x : ManifestArray) (rs : list (nat * nat)) : result ManifestArray :=
  let cs := chunk_shape (encoding x) in
  let* _ := guard (slice_bounds_ok (shape x) cs rs) AlignmentError in
  let origin := zip_with (fun r c => fst r / c) rs cs in
  Ok (mkArray
        (map (fun r => snd r - fst r) rs)
        (encoding x)
        (mkManifest
           (zip_with (fun r c => ceil_div (snd r - fst r) c) rs cs)
           (fun c' => chunk_at (manifest x) (zip_with Nat.add c' origin)))).

(** Element bounds of the whole-chunk range [j0, j1) on an axis of size [s]
    with chunk size [c] (the last chunk may be partial). *)
Definition chunk_range_bounds (s c j0 j1 : nat) : nat * nat :=
  (Nat.min (j0 * c) s, Nat.min (j1 * c) s).

Fixpoint chunk_ranges_bounds (shp cs : list nat) (js : list (nat * nat))
  : list (nat * nat) :=
  match shp, cs, js with
  | s :: shp', c :: cs', (j0, j1) :: js' =>
      chunk_range_bounds s c j0 j1 :: chunk_ranges_bounds shp' cs' js'
  | _, _, _ => []
  end.

(** ** VirtualDataset and the reference serializer (spec 3 and 4.4) *)

(** Modelled from the spec: VirtualDataset, an ordered mapping from variable
    name to ManifestArray, dimension-name-to-size bindings and attributes. *)
Record VirtualDataset := mkDataset {
  variables : list (string * ManifestArray);
  dim_sizes : list (string * nat);
  attrs : list (string * string)
}.

(** A valid dataset: unique variable names, every array valid. *)
Definition valid_dataset (ds : VirtualDataset) : Prop :=
  NoDup (map fst (variables ds)) /\
  Forall (fun p => valid_array (snd p)) (variables ds).

(** Entry-for-entry, attribute-for-attribute equality of datasets. *)
Definition dataset_equiv (d1 d2 : VirtualDataset) : Prop :=
  Forall2 (fun p q => fst p = fst q /\ array_equiv (snd p) (snd q))
    (variables d1) (variables d2)
  /\ dim_sizes d1 = dim_sizes d2 /\ attrs d1 = attrs d2.

(** Per-variable metadata block ([.zarray]-style). *)
Record ArrayMeta := mkMeta {
  meta_dtype : string;
  meta_codecs : list Codec;
  meta_fill : Z;
  meta_chunks : list nat;
  meta_shape : list nat
}.

Definition meta_of (x : ManifestArray) : ArrayMeta :=
  mkMeta (dtype (encoding x)) (codecs (encoding x)) (fill_value (encoding x))
    (chunk_shape (encoding x)) (shape x).

Definition meta_grid (md : ArrayMeta) : list nat :=
  zip_with ceil_div (meta_shape md) (meta_chunks md).

(** A reference: [(path, offset, length)]. *)
Definition RefTriple := (string * N * N)%type.

Definition triple_of (e : ChunkEntry) : RefTriple := (path e, offset e, length e).

Definition entry_of (t : RefTriple) : ChunkEntry :=
  let '(p, o, l) := t in mkEntry p o l.

(** Chunk coordinate keys: decimal components joined by ["."]. *)
Definition nat_to_string (n : nat) : string :=
  NilEmpty.string_of_uint (Nat.to_uint n).

Fixpoint coord_key (c : Coord) : string :=
  match c with
  | [] => ""
  | [n] => nat_to_string n
  | n :: c' => nat_to_string n ++ "." ++ coord_key c'
  end.

(** Nested-form key ["<variable>/<coord.key>"]. *)
Definition ref_key (v : string) (c : Coord) : string := v ++ "/" ++ coord_key c.

(** [char_free ch s]: the character [ch] does not occur in [s]. *)
Fixpoint char_free (ch : ascii) (s : string) : bool :=
  match s with
  | EmptyString => true
  | String a s' => negb (Ascii.eqb a ch) && char_free ch s'
  end.

(** Emission and reconstruction of references, generic in the key under
    which a variable's chunk is filed ([ref_key] for the nested form, the
    pair of columns [(variable, coordinate_key)] for the columnar form). *)
Section References.

Variable K : Type.
Variable key_eqb : K -> K -> bool.
Variable key_of : string -> Coord -> K.

Fixpoint lookup_ref (rs : list (K * RefTriple)) (k : K) : option RefTriple :=
  match rs with
  | [] => None
  | (k', t) :: rs' => if key_eqb k k' then Some t else lookup_ref rs' k
  end.

(** One reference per present chunk, in variable order then row-major
    order; absent chunks are omitted. *)
Definition emit_refs (vars : list (string * ManifestArray)) : list (K * RefTriple) :=
  flat_map (fun vx =>
    flat_map (fun c =>
      match chunk_at (manifest (snd vx)) c with
      | Some e => [(key_of (fst vx) c, triple_of e)]
      | None => []
      end) (grid_coords (grid_size (manifest (snd vx))))) vars.

(** Rebuild one variable from its metadata; its keys must cover its grid. *)
Definition array_of_meta (rs : list (K * RefTriple)) (v : string) (md : ArrayMeta)
  : result ManifestArray :=
  let enc := mkEncoding (meta_dtype md) (meta_codecs md) (meta_fill md) (meta_chunks md) in
  let gs := meta_grid md in
  let* _ := guard (forallb (fun c => match lookup_ref rs (key_of v c) with
                                     | Some _ => true | None => false end)
                     (grid_coords gs)) MalformedReferenceError in
  construct_array (meta_shape md) enc
    (mkManifest gs (fun c => option_map entry_of (lookup_ref rs (key_of v c)))).

Fixpoint arrays_of_metas (rs : list (K * RefTriple)) (metas : list (string * ArrayMeta))
  : result (list (string * ManifestArray)) :=
  match metas with
  | [] => Ok []
  | (v, md) :: metas' =>
      let* x := array_of_meta rs v md in
      let* xs := arrays_of_metas rs metas' in
      Ok ((v, x) :: xs)
  end.

(** Every key must address a coordinate of a declared variable's grid. *)
Definition keys_in_grids (rs : list (K * RefTriple)) (metas : list (string * ArrayMeta))
  : bool :=
  forallb (fun r =>
    existsb (fun vm =>
      existsb (fun c => key_eqb (fst r) (key_of (fst vm) c))
        (grid_coords (meta_grid (snd vm)))) metas) rs.

Definition rebuild (rs : list (K * RefTriple)) (metas : list (string * ArrayMeta))
  (dims : list (string * nat)) (ats : list (string * string)) : result VirtualDataset :=
  let* _ := guard (keys_in_grids rs metas) MalformedReferenceError in
  let* vars := arrays_of_metas rs metas in
  Ok (mkDataset vars dims ats).

End References.

Arguments lookup_ref {K}.
Arguments emit_refs {K}.
Arguments array_of_meta {K}.
Arguments arrays_of_metas {K}.
Arguments keys_in_grids {K}.
Arguments rebuild {K}.

(** Nested form: [version], [refs], per-variable metadata, and the
    attributes and dimension bindings as auxiliary metadata.  Inline
    literals are not modelled: the serializer never emits them. *)
Record NestedRefs := mkNested {
  version : nat;
  refs : list (string * RefTriple);
  array_meta : list (string * ArrayMeta);
  nested_attrs : list (string * string);
  nested_dims : list (string * nat)
}.

Definition ref_version : nat := 1.

Definition serialize_nested (ds : VirtualDataset) : NestedRefs :=
  mkNested ref_version (emit_refs ref_key (variables ds))
    (map (fun vx => (fst vx, meta_of (snd vx))) (variables ds))
    (attrs ds) (dim_sizes ds).

Definition deserialize_nested (n : NestedRefs) : result VirtualDataset :=
  let* _ := guard (Nat.eqb (version n) ref_version) MalformedReferenceError in
  rebuild String.eqb ref_key (refs n) (array_meta n) (nested_dims n) (nested_attrs n).

(** Columnar form: the fixed columns [(variable, coordinate_key, path,
    offset, length)], one row per reference, and the side-channel metadata. *)
Record ColumnarRefs := mkColumnar {
  col_variable : list string;
  col_coordinate_key : list string;
  col_path : list string;
  col_offset : list N;
  col_length : list N;
  side_meta : list (string * ArrayMeta);
  side_attrs : list (string * string);
  side_dims : list (string * nat)
}.

Definition column_key (v : string) (c : Coord) : string * string := (v, coord_key c).

Definition pair_eqb (x y : string * string) : bool :=
  String.eqb (fst x) (fst y) && String.eqb (snd x) (snd y).

Definition serialize_columnar (ds : VirtualDataset) : ColumnarRefs :=
  let rows := emit_refs column_key (variables ds) in
  mkColumnar
    (map (fun r => fst (fst r)) rows)
    (map (fun r => snd (fst r)) rows)
    (map (fun r => fst (fst (snd r))) rows)
    (map (fun r => snd (fst (snd r))) rows)
    (map (fun r => snd (snd r)) rows)
    (map (fun vx => (fst vx, meta_of (snd vx))) (variables ds))
    (attrs ds) (dim_sizes ds).

(** Reassemble rows from the five columns; columns of unequal length are
    malformed. *)
Fixpoint rows_of_columns (vs ks ps : list string) (os ls : list N)
  : option (list ((string * string) * RefTriple)) :=
  match vs, ks, ps, os, ls with
  | [], [], [], [], [] => Some []
  | v :: vs', k :: ks', p :: ps', o :: os', l :: ls' =>
      match rows_of_columns vs' ks' ps' os' ls' with
      | Some rows => Some (((v, k), (p, o, l)) :: rows)
      | None => None
      end
  | _, _, _, _, _ => None
  end.

Definition deserialize_columnar (t : ColumnarRefs) : result VirtualDataset :=
  match rows_of_columns (col_variable t) (col_coordinate_key t) (col_path t)
          (col_offset t) (col_length t) with
  | None => Err MalformedReferenceError
  | Some rows => rebuild pair_eqb column_key rows (side_meta t) (side_dims t) (side_attrs t)
  end.

(** The two target encodings. *)
Inductive RefEncoding := NestedMapping | ColumnarTable.

Inductive Serialized :=
| SNested (n : NestedRefs)
| SColumnar (t : ColumnarRefs).

Definition serialize (ds : VirtualDataset) (E : RefEncoding) : Serialized :=
  match E with
  | NestedMapping => SNested (serialize_nested ds)
  | ColumnarTable => SColumnar (serialize_columnar ds)
  end.

Definition deserialize (s : Serialized) (E : RefEncoding) : result VirtualDataset :=
  match E, s with
  | NestedMapping, SNested n => deserialize_nested n
  | ColumnarTable, SColumnar t => deserialize_columnar t
  | _, _ => Err MalformedReferenceError
  end.

(** Every grid cell of every variable holds a present chunk entry. *)
Definition all_present (ds : VirtualDataset) : Prop :=
  Forall (fun vx => forall c, In c (grid_coords (grid_size (manifest (snd vx)))) ->
                     chunk_at (manifest (snd vx)) c <> None) (variables ds).

(** Encoding compatibility: identical dtype, codec chain and fill value. *)
Definition encoding_compatible (e1 e2 : Encoding) : Prop :=
  dtype e1 = dtype e2 /\ codecs e1 = codecs e2 /\ fill_value e1 = fill_value e2.

(** The named field differs between two encodings. *)
Definition field_differs (f : EncodingField) (e1 e2 : Encoding) : Prop :=
  match f with
  | FDtype => dtype e1 <> dtype e2
  | FCodecs => codecs e1 <> codecs e2
  | FFillValue => fill_value e1 <> fill_value e2
  end.

(** The inputs pass steps 1 to 3 of concatenation along [a]. *)
Definition concat_compatible (a : nat) (arrs : list ManifestArray) : Prop :=
  match arrs with
  | [] => False
  | x0 :: rest =>
      Forall (fun x => encoding_compatible (encoding x0) (encoding x)) rest /\
      Forall (fun x => agree_off_axis a (chunk_shape (encoding x0))
                         (chunk_shape (encoding x)) = true) arrs /\
      a < List.length (chunk_shape (encoding x0)) /\
      Forall (fun x => last_chunk_full a x = true) (removelast arrs) /\
      Forall (fun x => agree_off_axis a (shape x0) (shape x) = true) rest
  end.

(** Chunk offset of input [k] along [a]: the grid sizes of the inputs before
    it. *)
Definition grid_offset (a : nat) (arrs : list ManifestArray) (k : nat) : nat :=
  list_sum (map (fun x => at_ a (grid_size (manifest x))) (firstn k arrs)).

(** Logical extent of chunk [j] on an axis of size [s] with chunk size [c]. *)
Definition chunk_extent (s c j : nat) : nat := Nat.min c (s - j * c).

(** Chunk [j] of [x] along [a] exists and is partial. *)
Definition partial_chunk (a : nat) (x : ManifestArray) (j : nat) : Prop :=
  j < at_ a (grid_size (manifest x)) /\
  chunk_extent (at_ a (shape x)) (at_ a (chunk_shape (encoding x))) j
    <> at_ a (chunk_shape (encoding x)).

(** A coordinate (possibly with negative components) inside the grid
    [0..gs_i) on every dimension. *)
Definition in_box (k : list Z) (gs : list nat) : Prop :=
  List.length k = List.length gs /\
  forall i, i < List.length gs -> (0 <= nth i k 0 < Z.of_nat (at_ i gs))%Z.

(** ** Example notebook: TerraClimate file URLs
    (examples/coiled/terraclimate.ipynb) *)

Definition tvars : list string :=
  ["aet"; "def"; "pet"; "ppt"; "q"; "soil"; "srad"; "swe"; "tmax"; "tmin";
   "vap"; "ws"; "vpd"; "PDSI"]%string.

Definition min_year : nat := 1958.
Definition max_year : nat := 2023.

(** [np.arange(start, stop, step)] on non-negative integers with a positive
    step: [start, start + step, ...] below [stop]. *)
Definition arange (start stop : nat) (step : positive) : list nat :=
  map (fun k => start + k * Pos.to_nat step)
    (seq 0 (ceil_div (stop - start) (Pos.to_nat step))).

Definition time_list : list nat := arange min_year (max_year + 1) 1.

(** The f-string of the comprehension; [{year}] prints the integer in
    decimal. *)
Definition terraclimate_url (var : string) (year : nat) : string :=
  ("https://climate.northwestknowledge.net/TERRACLIMATE-DATA/TerraClimate_"
   ++ var ++ "_" ++ nat_to_string year ++ ".nc")%string.

(** [[url(var, year) for year in years for var in vars]]: years in the
    outer loop. *)
Definition combinations_of (vars : list string) (years : list nat) : list string :=
  flat_map (fun year => map (fun var => terraclimate_url var year) vars) years.

Definition combinations : list string := combinations_of tvars time_list.

(** ** Concrete inputs used by the counterexamples *)

(** An array of shape (3,) in chunks of 2 (last chunk partial), and one of
    shape (2,) with another dtype. *)
Definition partial_f64 : ManifestArray :=
  mkArray [3] (mkEncoding "float64" [] 0 [2]) (mkManifest [2] (fun _ => None)).

Definition full_i32 : ManifestArray :=
  mkArray [2] (mkEncoding "int32" [] 0 [2]) (mkManifest [1] (fun _ => None)).

(** Three compatible 1-d arrays whose chunk sizes along the axis differ:
    shape (2,) in chunks of 2, and twice shape (3,) in chunks of 3. *)
Definition f64_by2 : ManifestArray :=
  mkArray [2] (mkEncoding "float64" [] 0 [2]) (mkManifest [1] (fun _ => None)).

Definition f64_by3 : ManifestArray :=
  mkArray [3] (mkEncoding "float64" [] 0 [3]) (mkManifest [1] (fun _ => None)).

(** A one-variable dataset whose single chunk is absent. *)
Definition absent_chunk_ds : VirtualDataset :=
  mkDataset [("x"%string, mkArray [2] (mkEncoding "float64" [] 0 [2]) (mkManifest [1] (fun _ => None)))]
    [] [].

(** Two-chunk float64 arrays whose chunks are both present in file [p]:
    shape (4,) has two full chunks of 2, shape (3,) a partial last one. *)
Definition two_chunk (n : nat) (p : string) : ManifestArray :=
  mkArray [n] (mkEncoding "float64" [] 0 [2])
    (mkManifest [2] (fun c => match c with
                              | [0] => Some (mkEntry p 0 100)
                              | [1] => Some (mkEntry p 100 100)
                              | _ => None
                              end)).

Definition arr4 : ManifestArray := two_chunk 4 "a.nc".

Definition arr3 : ManifestArray := two_chunk 3 "b.nc".

(** A dataset of two fully present variables, a dimension binding and an
    attribute. *)
Definition present_ds : VirtualDataset :=
  mkDataset [("a"%string, arr4); ("b"%string, arr3)] [("t"%string, 7)]
    [("title"%string, "demo"%string)].

(** ** Proofs *)

(** *** Helper lemmas on lists, coordinates and grids *)

Lemma coord_eqb_spec c d : coord_eqb c d = true <-> c = d.
Proof.
  revert d; induction c as [|x c IH]; intros [|y d]; simpl; try easy.
  rewrite andb_true_iff, Nat.eqb_eq, IH; split; [intros [-> ->]; auto | intros H; injection H; auto].
Qed.

Lemma zcoord_eqb_spec c d : zcoord_eqb c d = true <-> c = d.
Proof.
  revert d; induction c as [|x c IH]; intros [|y d]; simpl; try easy.
  rewrite andb_true_iff, Z.eqb_eq, IH; split; [intros [-> ->]; auto | intros H; injection H; auto].
Qed.

Lemma length_update_nth a v l : List.length (update_nth a v l) = List.length l.
Proof.
  revert a; induction l as [|x l IH]; intros [|a]; simpl; auto.
Qed.

Lemma at_update_same a v l : a < List.length l -> at_ a (update_nth a v l) = v.
Proof.
  unfold at_; revert a; induction l as [|x l IH]; intros [|a] H; simpl in *; try lia; auto.
  apply IH; lia.
Qed.

Lemma at_update_other a i v l : i <> a -> at_ i (update_nth a v l) = at_ i l.
Proof.
  unfold at_; revert a i; induction l as [|x l IH]; intros [|a] [|i] H; simpl; auto;
    try lia; try (apply IH; lia).
Qed.

Lemma update_nth_at a l : update_nth a (at_ a l) l = l.
Proof.
  unfold at_; revert a; induction l as [|x l IH]; intros [|a]; simpl; auto.
  now rewrite IH.
Qed.

Lemma update_update a v w l : update_nth a v (update_nth a w l) = update_nth a v l.
Proof.
  revert a; induction l as [|x l IH]; intros [|a]; simpl; auto. now rewrite IH.
Qed.

(** Two lists of equal length agreeing at every position are equal. *)
Lemma list_ext_at (l1 l2 : list nat) :
  List.length l1 = List.length l2 ->
  (forall i, i < List.length l1 -> at_ i l1 = at_ i l2) -> l1 = l2.
Proof.
  unfold at_; revert l2; induction l1 as [|x l1 IH]; intros [|y l2] Hl H;
    simpl in *; try lia; auto.
  f_equal; [apply (H 0); lia|]. apply IH; [lia|]. intros i Hi. apply (H (S i)); lia.
Qed.

Lemma in_grid_coords gs c :
  In c (grid_coords gs) <->
  List.length c = List.length gs /\ forall i, i < List.length gs -> at_ i c < at_ i gs.
Proof.
  unfold at_; revert c; induction gs as [|g gs IH]; intros c; simpl.
  - split; [intros [<- | []]; split; [reflexivity | lia]|].
    intros [Hl _]; destruct c; simpl in *; [auto | lia].
  - rewrite in_flat_map; split.
    + intros (i & Hi & Hc). apply in_map_iff in Hc as (c' & <- & Hc').
      apply IH in Hc' as [Hl Hlt]. apply in_seq in Hi. simpl. split; [lia|].
      intros [|j] Hj; [lia | apply Hlt; lia].
    + intros [Hl Hlt]. destruct c as [|x c]; simpl in Hl; [lia|].
      exists x; split; [apply in_seq; specialize (Hlt 0); simpl in Hlt; lia|].
      apply in_map. apply IH; split; [lia|]. intros j Hj. apply (Hlt (S j)); lia.
Qed.

(** *** Geometry *)

Lemma ceil_div_extent s c g :
  0 < c ->
  g = ceil_div s c <-> (0 < last_chunk_extent s c g <= Z.of_nat c)%Z.
Proof.
  intros Hc; unfold ceil_div, last_chunk_extent.
  pose proof (Nat.div_mod (s + c - 1) c ltac:(lia)) as Hdm.
  pose proof (Nat.mod_upper_bound (s + c - 1) c ltac:(lia)) as Hr.
  split.
  - intros ->. nia.
  - intros H. apply (Nat.div_unique _ _ _ (s + c - 1 - g * c)); nia.
Qed.

Lemma geometry_ok_spec s c g :
  geometry_ok s c g = true <->
  List.length s = List.length c /\ List.length c = List.length g /\
  forall i, i < List.length s -> 0 < at_ i c /\ at_ i g = ceil_div (at_ i s) (at_ i c).
Proof.
  unfold at_; revert c g; induction s as [|s1 s IH]; intros [|c1 c] [|g1 g]; simpl;
    split; intros H; try discriminate; try (destruct H as (H1 & H2 & _); lia); auto.
  - repeat split; intros; lia.
  - apply andb_true_iff in H as [H H3]; apply andb_true_iff in H as [H1 H2].
    apply Nat.ltb_lt in H1; apply Nat.eqb_eq in H2; apply IH in H3 as (H3 & H4 & H5).
    split; [lia|]. split; [lia|]. intros j Hj; destruct j as [|j]; [auto|].
    apply H5; lia.
  - destruct H as (H1 & H2 & H3).
    rewrite (proj2 (Nat.ltb_lt _ _)) by (apply (H3 0); lia).
    rewrite (proj2 (Nat.eqb_eq _ _)) by (apply (H3 0); lia).
    apply IH; split; [lia|]. split; [lia|]. intros j Hj; apply (H3 (S j)); lia.
Qed.

Lemma geometry_ok_invariant s c g :
  geometry_ok s c g = true <-> geometry_invariant s c g.
Proof.
  rewrite geometry_ok_spec; unfold geometry_invariant.
  split.
  - intros (H1 & H2 & H3). refine (conj H1 (conj H2 _)).
    intros j Hj; destruct (H3 j Hj) as [Hc Hg]; split; auto.
    apply ceil_div_extent; auto.
  - intros (H1 & H2 & H3). refine (conj H1 (conj H2 _)).
    intros j Hj; destruct (H3 j Hj) as [Hc Hg]; split; auto.
    apply ceil_div_extent; auto.
Qed.

(** *** ManifestArray construction *)

(** C10: construction from [(shape, encoding, manifest)] succeeds exactly
    when, on every dimension, the grid size is the shape rounded up by the
    chunk size, equivalently the last chunk's logical extent
    [shape_i - (grid_size_i - 1) * chunk_shape_i] lies in [(0, chunk_shape_i]];
    otherwise it fails with [GeometryError]. *)
Theorem construct_array_geometry (shp : list nat) (enc : Encoding) (man : ChunkManifest) :
  (construct_array shp enc man = Ok (mkArray shp enc man) /\
   geometry_invariant shp (chunk_shape enc) (grid_size man) /\
   (forall i, i < List.length shp ->
      at_ i (grid_size man) = ceil_div (at_ i shp) (at_ i (chunk_shape enc))))
  \/
  (construct_array shp enc man = Err GeometryError /\
   ~ geometry_invariant shp (chunk_shape enc) (grid_size man)).
Proof.
  unfold construct_array. destruct (geometry_ok _ _ _) eqn:E.
  - left. split; [reflexivity|]. split; [apply geometry_ok_invariant; exact E|].
    apply geometry_ok_spec in E as (_ & _ & H). intros i Hi; apply H; exact Hi.
  - right. split; [reflexivity|]. rewrite <- geometry_ok_invariant. congruence.
Qed.

(** *** ChunkManifest construction *)

Lemma construct_manifest_err m e :
  construct_manifest m = Err e -> e = ShapeError.
Proof.
  destruct m as [|[k0 v0] m']; simpl; [congruence|].
  unfold bind, guard.
  repeat match goal with |- context [if ?b then _ else _] => destruct b end;
    congruence.
Qed.

Lemma of_to_nat_coord (k : list Z) :
  (forall i, i < List.length k -> (0 <= nth i k 0)%Z) ->
  map Z.of_nat (map Z.to_nat k) = k.
Proof.
  induction k as [|z k IH]; intros H; simpl; auto.
  f_equal.
  - specialize (H 0 ltac:(simpl; lia)); simpl in H; lia.
  - apply IH. intros i Hi. apply (H (S i)); simpl; lia.
Qed.

Lemma nth_map_seq {A} (f : nat -> A) n i d :
  i < n -> nth i (map f (seq 0 n)) d = f i.
Proof.
  intros Hi.
  rewrite nth_indep with (d' := f 0) by (rewrite length_map, length_seq; exact Hi).
  rewrite map_nth, seq_nth by exact Hi. reflexivity.
Qed.

Lemma length_inferred_grid keys rank :
  List.length (inferred_grid keys rank) = rank.
Proof.
  unfold inferred_grid; rewrite length_map, length_seq; reflexivity.
Qed.

Lemma at_inferred_grid keys rank i :
  i < rank ->
  at_ i (inferred_grid keys rank) =
  S (list_max (map (fun k => Z.to_nat (nth i k 0%Z)) keys)).
Proof.
  intros Hi; unfold at_, inferred_grid.
  exact (nth_map_seq (fun j => S (list_max (map (fun k => Z.to_nat (nth j k 0%Z)) keys)))
           rank i 0 Hi).
Qed.

Lemma construct_manifest_ok_keys m man :
  construct_manifest m = Ok man ->
  forall k, In k (map fst m) <-> in_box k (grid_size man).
Proof.
  destruct m as [|[k0 v0] m']; [simpl; congruence|].
  unfold construct_manifest, bind, guard; cbv zeta.
  destruct (forallb (forallb (Z.leb 0)) _) eqn:Hnn; [|congruence].
  destruct (forallb (fun k => Nat.eqb _ _) _) eqn:Hrk; [|congruence].
  destruct (forallb (fun c => existsb _ _) _) eqn:Hd; [|congruence].
  intros Heq; injection Heq as <-. cbn [grid_size]. intros k.
  set (keys := map fst ((k0, v0) :: m')) in *.
  unfold in_box; rewrite length_inferred_grid.
  split.
  - intros Hk.
    pose proof (proj1 (forallb_forall _ _) Hnn k Hk) as Hnk.
    pose proof (proj1 (forallb_forall _ _) Hrk k Hk) as Hrank.
    apply Nat.eqb_eq in Hrank.
    split; [exact Hrank|].
    intros i Hi.
    assert (Hz : (0 <= nth i k 0)%Z).
    { apply Z.leb_le. apply (proj1 (forallb_forall _ _) Hnk).
      apply nth_In. lia. }
    split; [exact Hz|].
    rewrite at_inferred_grid by exact Hi.
    assert (Hmax : Z.to_nat (nth i k 0%Z) <=
                   list_max (map (fun k => Z.to_nat (nth i k 0%Z)) keys)).
    { set (f := fun k : list Z => Z.to_nat (nth i k 0%Z)).
      pose proof (proj1 (list_max_le (map f keys) (list_max (map f keys))) (le_n _)) as HF.
      rewrite Forall_forall in HF. apply (HF (f k)). apply in_map. exact Hk. }
    pose proof (Z2Nat.id _ Hz). change (k0 :: map fst m') with keys. lia.
  - intros [Hl Hb].
    assert (Hnn' : forall i, i < List.length k -> (0 <= nth i k 0)%Z)
      by (intros i Hi; apply Hb; lia).
    assert (Hc : In (map Z.to_nat k) (grid_coords (inferred_grid keys (List.length k0)))).
    { apply in_grid_coords. rewrite length_map, length_inferred_grid. split; [exact Hl|].
      intros i Hi. unfold at_.
      change 0 with (Z.to_nat 0%Z) at 1. rewrite map_nth.
      specialize (Hb i Hi). unfold at_ in Hb. change (k0 :: map fst m') with keys in Hb.
      lia. }
    pose proof (proj1 (forallb_forall _ _) Hd _ Hc) as Hex.
    apply existsb_exists in Hex as (k' & Hk' & Heq).
    apply zcoord_eqb_spec in Heq. rewrite of_to_nat_coord in Heq by exact Hnn'.
    subst k'. exact Hk'.
Qed.

(** C9: a successfully constructed manifest has exactly the grid coordinates
    of its grid size as keys (a perfect rectangular grid from the origin);
    a mapping with a negative component, or whose key set is no such grid,
    raises [ShapeError]; in particular keys [{(0,), (2,)}] (grid size 3,
    [(1,)] missing) raise [ShapeError]. *)
Theorem construct_manifest_shape_error (m : Mapping) :
  (forall man, construct_manifest m = Ok man ->
     forall k, In k (map fst m) <-> in_box k (grid_size man)) /\
  ((exists k z, In k (map fst m) /\ In z k /\ (z < 0)%Z) \/
   ~ (exists gs, forall k, In k (map fst m) <-> in_box k gs) ->
   construct_manifest m = Err ShapeError) /\
  (forall c0 c2 : Cell, construct_manifest [([0%Z], c0); ([2%Z], c2)] = Err ShapeError).
Proof.
  split; [exact (construct_manifest_ok_keys m)|]. split; [|reflexivity].
  intros Hbad. destruct (construct_manifest m) as [man|e] eqn:E.
  - exfalso. pose proof (construct_manifest_ok_keys m man E) as Hk.
    destruct Hbad as [(k & z & Hin & Hz & Hneg) | Hng].
    + apply Hk in Hin as [Hl Hb]. apply In_nth with (d := 0%Z) in Hz as (i & Hi & <-).
      specialize (Hb i ltac:(lia)). lia.
    + apply Hng. exists (grid_size man). exact Hk.
  - f_equal. apply (construct_manifest_err m e E).
Qed.

(** *** Concatenation: the checks *)

Lemma guard_ok b e u : guard b e = Ok u -> b = true.
Proof. destruct b; simpl; congruence. Qed.

Lemma bind_ok {A B} (m : result A) (f : A -> result B) r :
  bind m f = Ok r -> exists x, m = Ok x /\ f x = Ok r.
Proof. destruct m; simpl; [eauto | congruence]. Qed.

Lemma bind_err {A B} (m : result A) (f : A -> result B) e :
  bind m f = Err e -> m = Err e \/ exists x, m = Ok x /\ f x = Err e.
Proof. destruct m as [x|e']; simpl; intros H; [right; exists x; auto | left; injection H as ->; reflexivity]. Qed.

Lemma codec_config_eqb_spec x y : codec_config_eqb x y = true <-> x = y.
Proof.
  unfold codec_config_eqb; revert y.
  induction x as [|[k v] x IH]; intros [|[k' v'] y]; try (split; easy).
  rewrite !andb_true_iff, !String.eqb_eq, IH.
  split; [intros [[-> ->] ->]; reflexivity | intros H; injection H; auto].
Qed.

Lemma codecs_eqb_spec x y : codecs_eqb x y = true <-> x = y.
Proof.
  revert y; induction x as [|[i g] x IH]; intros [|[i' g'] y]; simpl; try (split; easy).
  unfold codec_eqb; simpl.
  rewrite !andb_true_iff, String.eqb_eq, codec_config_eqb_spec, IH.
  split; [intros [[-> ->] ->]; reflexivity | intros H; injection H; auto].
Qed.

Lemma encoding_mismatch_none e0 e :
  encoding_mismatch e0 e = None <-> encoding_compatible e0 e.
Proof.
  unfold encoding_mismatch, encoding_compatible.
  destruct (String.eqb_spec (dtype e0) (dtype e)) as [H1|H1]; simpl;
    [| split; [discriminate | tauto]].
  destruct (codecs_eqb (codecs e0) (codecs e)) eqn:H2; simpl;
    [| split; [discriminate | intros (_ & H & _); apply codecs_eqb_spec in H; congruence]].
  apply codecs_eqb_spec in H2.
  destruct (Z.eqb_spec (fill_value e0) (fill_value e)) as [H3|H3]; simpl;
    [split; auto | split; [discriminate | tauto]].
Qed.

Lemma encoding_mismatch_some e0 e f :
  encoding_mismatch e0 e = Some f -> field_differs f e0 e.
Proof.
  unfold encoding_mismatch, field_differs.
  destruct (String.eqb (dtype e0) (dtype e)) eqn:H1; simpl;
    [|intros H; injection H as <-; apply String.eqb_neq; exact H1].
  destruct (codecs_eqb (codecs e0) (codecs e)) eqn:H2; simpl;
    [|intros H; injection H as <-; intros Heq; apply codecs_eqb_spec in Heq; congruence].
  destruct (Z.eqb (fill_value e0) (fill_value e)) eqn:H3; simpl; [congruence|].
  intros H; injection H as <-; apply Z.eqb_neq; exact H3.
Qed.

Lemma check_encodings_ok e0 k rest :
  check_encodings e0 k rest = Ok tt <->
  Forall (fun x => encoding_compatible e0 (encoding x)) rest.
Proof.
  revert k; induction rest as [|x rest IH]; intros k; simpl.
  - split; auto.
  - destruct (encoding_mismatch e0 (encoding x)) eqn:E.
    + split; [congruence|]. intros H; inversion H as [|? ? Hx]; subst.
      apply encoding_mismatch_none in Hx. congruence.
    + rewrite IH. apply encoding_mismatch_none in E.
      split; [intros H; constructor; auto | intros H; inversion H; auto].
Qed.

Lemma check_encodings_err e0 k rest e :
  check_encodings e0 k rest = Err e ->
  exists j x f, e = IncompatibleEncodingError 0 (k + j) f /\
    nth_error rest j = Some x /\ field_differs f e0 (encoding x).
Proof.
  revert k; induction rest as [|x rest IH]; intros k; simpl; [congruence|].
  destruct (encoding_mismatch e0 (encoding x)) eqn:E.
  - intros H; injection H as <-. exists 0, x, e1.
    rewrite Nat.add_0_r. repeat split; auto. apply encoding_mismatch_some; exact E.
  - intros H. apply IH in H as (j & y & f & -> & Hj & Hf).
    exists (S j), y, f. rewrite Nat.add_succ_r. repeat split; auto.
Qed.

Lemma check_chunk_shapes_ok a cs0 k arrs :
  check_chunk_shapes a cs0 k arrs = Ok tt <->
  Forall (fun x => agree_off_axis a cs0 (chunk_shape (encoding x)) = true) arrs.
Proof.
  revert k; induction arrs as [|x arrs IH]; intros k; simpl.
  - split; auto.
  - destruct (agree_off_axis a cs0 (chunk_shape (encoding x))) eqn:E.
    + rewrite IH. split; [intros H; constructor; auto | intros H; inversion H; auto].
    + split; [congruence|]. intros H; inversion H; congruence.
Qed.

Lemma check_chunk_shapes_err a cs0 k arrs e :
  check_chunk_shapes a cs0 k arrs = Err e -> exists k', e = PartialChunkAlignmentError k'.
Proof.
  revert k; induction arrs as [|x arrs IH]; intros k; simpl; [congruence|].
  destruct (agree_off_axis _ _ _); [apply IH | intros H; injection H as <-; eauto].
Qed.

Lemma check_full_last_chunks_ok a k arrs :
  check_full_last_chunks a k arrs = Ok tt <->
  Forall (fun x => last_chunk_full a x = true) (removelast arrs).
Proof.
  revert k; induction arrs as [|x arrs IH]; intros k; [simpl; split; auto|].
  destruct arrs as [|y arrs]; [simpl; split; auto|].
  change (check_full_last_chunks a k (x :: y :: arrs)) with
    (if last_chunk_full a x then check_full_last_chunks a (S k) (y :: arrs)
     else Err (PartialChunkAlignmentError k)).
  change (removelast (x :: y :: arrs)) with (x :: removelast (y :: arrs)).
  destruct (last_chunk_full a x) eqn:E.
  - rewrite IH. split; [intros H; constructor; auto | intros H; inversion H; auto].
  - split; [congruence|]. intros H; inversion H; congruence.
Qed.

Lemma check_full_last_chunks_err a k arrs e :
  check_full_last_chunks a k arrs = Err e -> exists k', e = PartialChunkAlignmentError k'.
Proof.
  revert k; induction arrs as [|x arrs IH]; intros k; [simpl; congruence|].
  destruct arrs as [|y arrs]; [simpl; congruence|].
  change (check_full_last_chunks a k (x :: y :: arrs)) with
    (if last_chunk_full a x then check_full_last_chunks a (S k) (y :: arrs)
     else Err (PartialChunkAlignmentError k)).
  destruct (last_chunk_full a x); [apply IH | intros H; injection H as <-; eauto].
Qed.

Lemma guard_true b e : b = true -> guard b e = Ok tt.
Proof. intros ->; reflexivity. Qed.

Lemma forallb_Forall {A} (f : A -> bool) l : forallb f l = true <-> Forall (fun x => f x = true) l.
Proof. rewrite forallb_forall, Forall_forall; reflexivity. Qed.

(** The outcome of a successful concatenation. *)
Lemma concat_ok_iff a x0 rest r :
  concat a (x0 :: rest) = Ok r <->
  concat_compatible a (x0 :: rest) /\
  r = mkArray
        (update_nth a (list_sum (map (fun x => at_ a (shape x)) (x0 :: rest))) (shape x0))
        (encoding x0)
        (concat_manifests a (manifest x0) (map manifest (x0 :: rest))).
Proof.
  unfold concat, concat_compatible. split.
  - intros H.
    apply bind_ok in H as ([] & H1 & H). apply check_encodings_ok in H1.
    apply bind_ok in H as ([] & H2 & H). apply check_chunk_shapes_ok in H2.
    apply bind_ok in H as ([] & H3 & H). apply guard_ok, Nat.ltb_lt in H3.
    apply bind_ok in H as ([] & H4 & H). apply check_full_last_chunks_ok in H4.
    apply bind_ok in H as ([] & H5 & H). apply guard_ok, forallb_Forall in H5.
    injection H as <-. repeat split; auto.
  - intros ((H1 & H2 & H3 & H4 & H5) & ->).
    apply (proj2 (check_encodings_ok _ 1 _)) in H1.
    apply (proj2 (check_chunk_shapes_ok _ _ 0 _)) in H2.
    apply (proj2 (Nat.ltb_lt _ _)) in H3.
    apply (proj2 (check_full_last_chunks_ok _ 0 _)) in H4.
    apply (proj2 (forallb_Forall _ _)) in H5.
    cbn [bind]. rewrite H1; cbn [bind]. rewrite H2; cbn [bind].
    rewrite (guard_true _ _ H3); cbn [bind]. rewrite H4; cbn [bind].
    rewrite (guard_true _ _ H5). reflexivity.
Qed.

Lemma agree_off_axis_spec a l1 l2 :
  agree_off_axis a l1 l2 = true <->
  List.length l1 = List.length l2 /\ forall i, i <> a -> at_ i l1 = at_ i l2.
Proof.
  unfold agree_off_axis. rewrite andb_true_iff, Nat.eqb_eq, forallb_forall.
  split.
  - intros [Hl H]. split; [exact Hl|]. intros i Hi.
    destruct (Nat.lt_ge_cases i (List.length l1)) as [Hlt|Hge].
    + specialize (H i (proj2 (in_seq _ _ _) (conj (Nat.le_0_l _) Hlt))).
      apply orb_true_iff in H as [H|H]; [apply Nat.eqb_eq in H; lia|].
      apply Nat.eqb_eq; exact H.
    + unfold at_. rewrite !nth_overflow by lia. reflexivity.
  - intros [Hl H]. split; [exact Hl|]. intros i _.
    destruct (Nat.eq_dec i a) as [->|Hne]; [rewrite Nat.eqb_refl; reflexivity|].
    rewrite (H i Hne), Nat.eqb_refl, orb_true_r. reflexivity.
Qed.

Lemma agree_off_axis_refl a l : agree_off_axis a l l = true.
Proof. apply agree_off_axis_spec; split; auto. Qed.

Lemma agree_off_axis_sym a l1 l2 :
  agree_off_axis a l1 l2 = true -> agree_off_axis a l2 l1 = true.
Proof.
  rewrite !agree_off_axis_spec. intros [Hl H]; split; [auto|]. intros i Hi; symmetry; auto.
Qed.

Lemma agree_off_axis_trans a l1 l2 l3 :
  agree_off_axis a l1 l2 = true -> agree_off_axis a l2 l3 = true ->
  agree_off_axis a l1 l3 = true.
Proof.
  rewrite !agree_off_axis_spec. intros [Hl H] [Hl' H']; split; [lia|].
  intros i Hi; rewrite H, H'; auto.
Qed.

Lemma valid_array_lengths x :
  valid_array x ->
  List.length (shape x) = List.length (chunk_shape (encoding x)) /\
  List.length (chunk_shape (encoding x)) = List.length (grid_size (manifest x)).
Proof.
  unfold valid_array; rewrite geometry_ok_spec; intros (H1 & H2 & _); auto.
Qed.

(** *** Concatenation: shape, reindexing, identity *)

(** C2: two valid arrays that pass the compatibility checks (same dtype,
    codec chain and fill value; chunk_shape equal off the axis; the first
    one's last chunk along the axis full; equal sizes off the axis)
    concatenate along a valid axis; the result's size on the axis is the sum
    of the inputs' sizes, and on every other axis it is the common size. *)
Theorem concat_two_shape (a : nat) (A B : ManifestArray) :
  valid_array A -> valid_array B ->
  encoding_compatible (encoding A) (encoding B) ->
  agree_off_axis a (chunk_shape (encoding A)) (chunk_shape (encoding B)) = true ->
  last_chunk_full a A = true ->
  agree_off_axis a (shape A) (shape B) = true ->
  a < List.length (shape A) ->
  exists R, concat a [A; B] = Ok R /\
    at_ a (shape R) = at_ a (shape A) + at_ a (shape B) /\
    List.length (shape R) = List.length (shape A) /\
    (forall i, i <> a -> at_ i (shape R) = at_ i (shape A) /\ at_ i (shape R) = at_ i (shape B)).
Proof.
  intros HA HB Henc Hcs Hfull Hsh Ha.
  destruct (valid_array_lengths A HA) as [HlA _].
  eexists; split.
  - apply concat_ok_iff. split; [|reflexivity].
    cbn [concat_compatible removelast].
    split; [constructor; auto|]. split; [constructor; [apply agree_off_axis_refl|]; auto|].
    split; [lia|]. split; constructor; auto.
  - assert (Hsum : list_sum (map (fun x => at_ a (shape x)) [A; B]) =
                    at_ a (shape A) + at_ a (shape B)) by (simpl; lia).
    cbn [shape]. rewrite Hsum.
    split; [apply at_update_same; exact Ha|].
    split; [apply length_update_nth|].
    intros i Hi. rewrite at_update_other by exact Hi.
    split; [reflexivity|]. apply agree_off_axis_spec in Hsh as [_ H]. apply H; exact Hi.
Qed.

Lemma grid_agree_off_axis a x y :
  valid_array x -> valid_array y ->
  agree_off_axis a (chunk_shape (encoding x)) (chunk_shape (encoding y)) = true ->
  agree_off_axis a (shape x) (shape y) = true ->
  agree_off_axis a (grid_size (manifest x)) (grid_size (manifest y)) = true.
Proof.
  unfold valid_array; rewrite !geometry_ok_spec, !agree_off_axis_spec.
  intros (Hx1 & Hx2 & Hx3) (Hy1 & Hy2 & Hy3) [Hc1 Hc2] [Hs1 Hs2].
  split; [lia|]. intros i Hi.
  destruct (Nat.lt_ge_cases i (List.length (shape x))) as [Hlt|Hge].
  - rewrite (proj2 (Hx3 i Hlt)), (proj2 (Hy3 i ltac:(lia))), Hc2, Hs2 by exact Hi.
    reflexivity.
  - unfold at_. rewrite !nth_overflow by lia. reflexivity.
Qed.

(** Every input of a successful concatenation agrees with the first one off
    the axis, in shape, chunk_shape and grid size. *)
Lemma concat_inputs_agree a x0 rest :
  Forall valid_array (x0 :: rest) -> concat_compatible a (x0 :: rest) ->
  Forall (fun x =>
    agree_off_axis a (chunk_shape (encoding x0)) (chunk_shape (encoding x)) = true /\
    agree_off_axis a (shape x0) (shape x) = true /\
    agree_off_axis a (grid_size (manifest x0)) (grid_size (manifest x)) = true)
    (x0 :: rest).
Proof.
  intros Hv (_ & Hcs & _ & _ & Hsh).
  assert (Hsh' : Forall (fun x => agree_off_axis a (shape x0) (shape x) = true) (x0 :: rest))
    by (constructor; [apply agree_off_axis_refl | exact Hsh]).
  rewrite Forall_forall in *. intros x Hx.
  pose proof (Hcs x Hx); pose proof (Hsh' x Hx).
  repeat split; auto. apply grid_agree_off_axis; auto. apply Hv; left; reflexivity.
Qed.

Lemma list_sum_split {A} (f : A -> nat) l k x :
  nth_error l k = Some x ->
  list_sum (map f l) =
  list_sum (map f (firstn k l)) + f x + list_sum (map f (skipn (S k) l)).
Proof.
  revert k; induction l as [|y l IH]; intros [|k] H; simpl in *; try discriminate.
  - injection H as ->. lia.
  - rewrite (IH k H). lia.
Qed.

Lemma list_sum_locate {A} (f : A -> nat) l n :
  n < list_sum (map f l) ->
  exists k x, nth_error l k = Some x /\
    list_sum (map f (firstn k l)) <= n < list_sum (map f (firstn k l)) + f x.
Proof.
  revert n; induction l as [|y l IH]; intros n H; simpl in *; [lia|].
  destruct (Nat.lt_ge_cases n (f y)) as [Hlt|Hge].
  - exists 0, y. simpl. split; [reflexivity | lia].
  - destruct (IH (n - f y) ltac:(lia)) as (k & x & Hk & Hb).
    exists (S k), x. simpl. split; [exact Hk | lia].
Qed.

Lemma locate_offset a arrs k x c :
  nth_error arrs k = Some x ->
  a < List.length c ->
  at_ a c < at_ a (grid_size (manifest x)) ->
  locate a (map manifest arrs) (update_nth a (grid_offset a arrs k + at_ a c) c) =
  chunk_at (manifest x) c.
Proof.
  unfold grid_offset. intros Hk Hl.
  revert k Hk; induction arrs as [|y arrs IH]; intros [|k] Hk Hc; simpl in *; try discriminate.
  - injection Hk as ->. rewrite update_nth_at.
    rewrite (proj2 (Nat.ltb_lt _ _) Hc). reflexivity.
  - set (o := list_sum (map (fun x => at_ a (grid_size (manifest x))) (firstn k arrs))).
    rewrite at_update_same by exact Hl.
    rewrite (proj2 (Nat.ltb_ge _ _)) by lia.
    rewrite update_update.
    replace (at_ a (grid_size (manifest y)) + o + at_ a c - at_ a (grid_size (manifest y)))
      with (o + at_ a c) by lia.
    apply IH; assumption.
Qed.

Lemma concat_result_grid a x0 rest R :
  concat a (x0 :: rest) = Ok R ->
  grid_size (manifest R) =
  update_nth a (list_sum (map (fun x => at_ a (grid_size (manifest x))) (x0 :: rest)))
    (grid_size (manifest x0)) /\
  chunk_at (manifest R) = locate a (map manifest (x0 :: rest)).
Proof.
  intros H; apply concat_ok_iff in H as [_ ->]. cbn [manifest concat_manifests grid_size chunk_at].
  rewrite map_map. split; reflexivity.
Qed.

Lemma concat_reindexes_general (a : nat) (arrs : list ManifestArray) (R : ManifestArray) :
  Forall valid_array arrs ->
  concat a arrs = Ok R ->
  (forall k x c, nth_error arrs k = Some x -> In c (grid_coords (grid_size (manifest x))) ->
     In (update_nth a (grid_offset a arrs k + at_ a c) c) (grid_coords (grid_size (manifest R))) /\
     chunk_at (manifest R) (update_nth a (grid_offset a arrs k + at_ a c) c) =
     chunk_at (manifest x) c) /\
  (forall c', In c' (grid_coords (grid_size (manifest R))) ->
     exists k x c, nth_error arrs k = Some x /\ In c (grid_coords (grid_size (manifest x))) /\
       c' = update_nth a (grid_offset a arrs k + at_ a c) c).
Proof.
  intros Hv HR. destruct arrs as [|x0 rest]; [discriminate|].
  pose proof HR as HR'. apply concat_ok_iff in HR' as [Hcomp _].
  destruct (concat_result_grid _ _ _ _ HR) as [Hg Hc].
  pose proof (concat_inputs_agree a x0 rest Hv Hcomp) as Hag.
  rewrite Forall_forall in Hag.
  assert (Hv0 : valid_array x0) by (inversion Hv; auto).
  destruct (valid_array_lengths x0 Hv0) as [_ Hl0].
  destruct Hcomp as (_ & _ & Ha & _).
  set (f := fun x => at_ a (grid_size (manifest x))) in *.
  set (total := list_sum (map f (x0 :: rest))) in *.
  assert (Hgx : forall x, In x (x0 :: rest) ->
            List.length (grid_size (manifest x)) = List.length (grid_size (manifest x0)) /\
            forall i, i <> a -> at_ i (grid_size (manifest x)) = at_ i (grid_size (manifest x0))).
  { intros x Hx. destruct (Hag x Hx) as (_ & _ & Hgr).
    apply agree_off_axis_spec in Hgr as [H1 H2]. split; [auto|]. intros i Hi; symmetry; auto. }
  split.
  - intros k x c Hk Hin.
    assert (Hx : In x (x0 :: rest)) by (eapply nth_error_In; eauto).
    destruct (Hgx x Hx) as [Hlx Hox].
    apply in_grid_coords in Hin as [Hlc Hlt].
    assert (Hac : a < List.length c) by lia.
    split.
    + rewrite Hg. apply in_grid_coords. rewrite !length_update_nth. split; [lia|].
      intros i Hi. destruct (Nat.eq_dec i a) as [->|Hne].
      * rewrite !at_update_same by lia.
        pose proof (list_sum_split f (x0 :: rest) k x Hk).
        unfold grid_offset. fold f. specialize (Hlt a ltac:(lia)). fold (f x) in Hlt.
        unfold total. lia.
      * rewrite !at_update_other by exact Hne. rewrite <- (Hox i Hne). apply Hlt. lia.
    + rewrite Hc. apply locate_offset; auto. apply Hlt; lia.
  - intros c' Hin. rewrite Hg in Hin. apply in_grid_coords in Hin as [Hlc Hlt].
    rewrite length_update_nth in Hlc, Hlt.
    assert (Hta : at_ a c' < total)
      by (specialize (Hlt a ltac:(lia)); rewrite at_update_same in Hlt by lia; exact Hlt).
    destruct (list_sum_locate f (x0 :: rest) (at_ a c') Hta) as (k & x & Hk & Hb).
    assert (Hx : In x (x0 :: rest)) by (eapply nth_error_In; eauto).
    destruct (Hgx x Hx) as [Hlx Hox].
    set (o := list_sum (map f (firstn k (x0 :: rest)))) in *.
    exists k, x, (update_nth a (at_ a c' - o) c'). split; [exact Hk|].
    assert (Hoff : grid_offset a (x0 :: rest) k = o) by reflexivity.
    split.
    + apply in_grid_coords. rewrite length_update_nth. split; [lia|].
      intros i Hi. destruct (Nat.eq_dec i a) as [->|Hne].
      * rewrite at_update_same by lia. unfold f in Hb. lia.
      * rewrite at_update_other by exact Hne. rewrite (Hox i Hne).
        specialize (Hlt i ltac:(lia)). rewrite at_update_other in Hlt by exact Hne.
        exact Hlt.
    + rewrite Hoff, at_update_same by lia. rewrite update_update.
      replace (o + (at_ a c' - o)) with (at_ a c') by lia.
      symmetry; apply update_nth_at.
Qed.

(** C3: concatenation lays out each input's grid at the cumulative chunk
    offset along the axis (the grid sizes of the inputs before it, in the
    caller's order): an entry at coordinate [c] of input [k] is found,
    unchanged, at [c] with component [a] raised by that offset and all other
    components kept, and every result coordinate is such an image.  For two
    arrays of shape (4,), chunk_shape (2,), grids [E00, E01] and [E10, E11],
    concatenation on axis 0 has shape (8,) and grid [E00, E01, E10, E11] in
    that order. *)
Theorem concat_reindexes :
  (forall E00 E01 E10 E11 : ChunkEntry,
     let enc := mkEncoding "float64"%string [] 0%Z [2] in
     let mk e0 e1 := mkArray [4] enc
          (mkManifest [2] (fun c => match c with
                                    | [0] => Some e0
                                    | [1] => Some e1
                                    | _ => None
                                    end)) in
     exists R, concat 0 [mk E00 E01; mk E10 E11] = Ok R /\ shape R = [8] /\
       manifest_items (manifest R) =
       [([0], Some E00); ([1], Some E01); ([2], Some E10); ([3], Some E11)]) /\
  (forall (a : nat) (arrs : list ManifestArray) (R : ManifestArray),
     Forall valid_array arrs ->
     concat a arrs = Ok R ->
     (forall k x c, nth_error arrs k = Some x -> In c (grid_coords (grid_size (manifest x))) ->
        In (update_nth a (grid_offset a arrs k + at_ a c) c)
           (grid_coords (grid_size (manifest R))) /\
        chunk_at (manifest R) (update_nth a (grid_offset a arrs k + at_ a c) c) =
        chunk_at (manifest x) c) /\
     (forall c', In c' (grid_coords (grid_size (manifest R))) ->
        exists k x c, nth_error arrs k = Some x /\
          In c (grid_coords (grid_size (manifest x))) /\
          c' = update_nth a (grid_offset a arrs k + at_ a c) c)).
Proof.
  split.
  - intros E00 E01 E10 E11 enc mk. eexists. split; [reflexivity|].
    split; reflexivity.
  - exact concat_reindexes_general.
Qed.

(** C6: concatenating the single-element list [A] along any axis of [A]
    returns an array equal to [A]: same shape and encoding, and a manifest
    equal entry-for-entry with the same grid size. *)
Theorem concat_single_identity (a : nat) (A : ManifestArray) :
  valid_array A -> a < List.length (shape A) ->
  exists R, concat a [A] = Ok R /\ array_equiv R A.
Proof.
  intros HA Ha. destruct (valid_array_lengths A HA) as [Hl1 Hl2].
  eexists; split.
  - apply concat_ok_iff. split; [|reflexivity].
    cbn [concat_compatible removelast].
    split; [constructor|]. split; [constructor; [apply agree_off_axis_refl | constructor]|].
    split; [lia|]. split; constructor.
  - cbn [list_sum map fold_right]. rewrite !Nat.add_0_r.
    unfold array_equiv; cbn [shape encoding manifest].
    split; [apply update_nth_at|]. split; [reflexivity|].
    unfold concat_manifests, manifest_equiv; cbn [grid_size chunk_at list_sum map fold_right].
    rewrite !Nat.add_0_r, update_nth_at. split; [reflexivity|].
    intros c Hc. apply in_grid_coords in Hc as [Hlc Hlt]. cbn [locate].
    rewrite (proj2 (Nat.ltb_lt _ _)) by (apply Hlt; lia). reflexivity.
Qed.

(** *** Concatenation: errors *)

Lemma field_differs_compat f e0 e1 e2 :
  encoding_compatible e0 e1 -> encoding_compatible e0 e2 -> ~ field_differs f e1 e2.
Proof.
  unfold encoding_compatible; intros (H1 & H2 & H3) (H4 & H5 & H6); destruct f; simpl; congruence.
Qed.

(** C4: if some pair of inputs differs in dtype, codec chain or fill value,
    concatenation along any axis fails with [IncompatibleEncodingError],
    naming a pair [(0, k)] of inputs and a field on which they differ; in
    particular two arrays with different dtypes always raise it. *)
Theorem concat_incompatible_encoding :
  (forall (a : nat) (arrs : list ManifestArray),
     (exists i j x y f, nth_error arrs i = Some x /\ nth_error arrs j = Some y /\
                        field_differs f (encoding x) (encoding y)) ->
     exists k f x0 y, concat a arrs = Err (IncompatibleEncodingError 0 k f) /\
       nth_error arrs 0 = Some x0 /\ nth_error arrs k = Some y /\
       field_differs f (encoding x0) (encoding y)) /\
  (forall (a : nat) (A B : ManifestArray),
     dtype (encoding A) <> dtype (encoding B) ->
     concat a [A; B] = Err (IncompatibleEncodingError 0 1 FDtype)).
Proof.
  split.
  - intros a arrs (i & j & x & y & f & Hi & Hj & Hd).
    destruct arrs as [|x0 rest]; [destruct i; discriminate|].
    destruct (check_encodings (encoding x0) 1 rest) as [[]|e] eqn:E.
    + exfalso. apply check_encodings_ok in E.
      assert (Hall : forall z, In z (x0 :: rest) -> encoding_compatible (encoding x0) (encoding z)).
      { intros z [<-|Hz]; [repeat split | rewrite Forall_forall in E; auto]. }
      apply (field_differs_compat f (encoding x0) (encoding x) (encoding y)); auto;
        apply Hall; eapply nth_error_In; eauto.
    + destruct (check_encodings_err _ _ _ _ E) as (j' & y' & f' & -> & Hj' & Hd').
      exists (S j'), f', x0, y'. split; [|split; [reflexivity | split; auto]].
      unfold concat. rewrite E. reflexivity.
  - intros a A B H. unfold concat. cbn [check_encodings].
    unfold encoding_mismatch. rewrite (proj2 (String.eqb_neq _ _) H). reflexivity.
Qed.

Lemma partial_chunk_not_full a x j :
  valid_array x -> partial_chunk a x j ->
  a < List.length (grid_size (manifest x)) /\ last_chunk_full a x = false.
Proof.
  intros Hv [Hj Hp]. pose proof Hv as Hv'. unfold valid_array in Hv'.
  rewrite geometry_ok_spec in Hv'. destruct Hv' as (H1 & H2 & H3).
  assert (Ha : a < List.length (grid_size (manifest x))).
  { destruct (Nat.lt_ge_cases a (List.length (grid_size (manifest x)))) as [H|H]; [exact H|].
    unfold at_ in Hj. rewrite nth_overflow in Hj by exact H. lia. }
  split; [exact Ha|].
  destruct (H3 a ltac:(lia)) as [Hc Hg].
  set (s := at_ a (shape x)) in *. set (c := at_ a (chunk_shape (encoding x))) in *.
  set (g := at_ a (grid_size (manifest x))) in *.
  apply (ceil_div_extent s c g Hc) in Hg. unfold last_chunk_extent in Hg.
  unfold chunk_extent in Hp. unfold last_chunk_full. fold s c g.
  apply Nat.eqb_neq. intros Hs.
  assert (Hlt : s - j * c < c) by lia.
  nia.
Qed.

Lemma nth_error_removelast {A} (l : list A) k x :
  nth_error l k = Some x -> S k < List.length l -> In x (removelast l).
Proof.
  revert k; induction l as [|y l IH]; intros [|k] Hk Hl; simpl in *; try discriminate.
  - injection Hk as ->. destruct l; simpl in *; [lia | left; reflexivity].
  - destruct l as [|z l]; simpl in *; [lia|]. right. apply (IH k); auto. simpl; lia.
Qed.

(** C5 (as amended): for inputs that pass the encoding check, concatenation
    fails with [PartialChunkAlignmentError] when an input other than the last
    has a partial chunk along the axis, or when two inputs' chunk_shape
    differ on an axis other than the concatenation axis. *)
Theorem concat_partial_chunk_alignment (a : nat) (arrs : list ManifestArray) :
  Forall valid_array arrs ->
  (forall x y, In x arrs -> In y arrs -> encoding_compatible (encoding x) (encoding y)) ->
  ((exists k x j, nth_error arrs k = Some x /\ S k < List.length arrs /\ partial_chunk a x j) \/
   (exists x y, In x arrs /\ In y arrs /\
      agree_off_axis a (chunk_shape (encoding x)) (chunk_shape (encoding y)) = false)) ->
  exists k, concat a arrs = Err (PartialChunkAlignmentError k).
Proof.
  intros Hv Hcomp Hbad.
  destruct arrs as [|x0 rest].
  { destruct Hbad as [(k & x & j & Hk & _)|(x & y & [] & _)]; destruct k; discriminate. }
  assert (He : check_encodings (encoding x0) 1 rest = Ok tt).
  { apply check_encodings_ok. rewrite Forall_forall. intros x Hx.
    apply Hcomp; [left; reflexivity | right; exact Hx]. }
  destruct (check_chunk_shapes a (chunk_shape (encoding x0)) 0 (x0 :: rest))
    as [[]|e] eqn:Hc.
  2:{ destruct (check_chunk_shapes_err _ _ _ _ _ Hc) as [k ->]. exists k.
      unfold concat. rewrite He; cbn [bind]. rewrite Hc. reflexivity. }
  apply check_chunk_shapes_ok in Hc. rewrite Forall_forall in Hc.
  destruct Hbad as [(k & x & j & Hk & Hlen & Hp) | (x & y & Hx & Hy & Hxy)].
  2:{ exfalso. pose proof (Hc x Hx) as Hx'. pose proof (Hc y Hy) as Hy'.
      apply agree_off_axis_sym in Hx'.
      rewrite (agree_off_axis_trans _ _ _ _ Hx' Hy') in Hxy. discriminate. }
  assert (Hxin : In x (x0 :: rest)) by (eapply nth_error_In; eauto).
  assert (Hvx : valid_array x) by (rewrite Forall_forall in Hv; auto).
  destruct (partial_chunk_not_full a x j Hvx Hp) as [Hax Hnf].
  assert (Ha : a < List.length (chunk_shape (encoding x0))).
  { pose proof (Hc x Hxin) as Hag. apply agree_off_axis_spec in Hag as [Hl _].
    destruct (valid_array_lengths x Hvx). lia. }
  destruct (check_full_last_chunks a 0 (x0 :: rest)) as [[]|e] eqn:Hf.
  - exfalso. apply check_full_last_chunks_ok in Hf. rewrite Forall_forall in Hf.
    rewrite (Hf x (nth_error_removelast _ _ _ Hk Hlen)) in Hnf. discriminate.
  - destruct (check_full_last_chunks_err _ _ _ _ Hf) as [k' ->]. exists k'.
    unfold concat. rewrite He; cbn [bind].
    rewrite (proj2 (check_chunk_shapes_ok _ _ _ _) (proj2 (Forall_forall _ _) Hc)).
    cbn [bind]. rewrite (guard_true _ _ (proj2 (Nat.ltb_lt _ _) Ha)). cbn [bind].
    rewrite Hf. reflexivity.
Qed.

(** C5 as stated fails: the encoding check runs first, so a non-final input
    with a partial chunk next to an input of another dtype yields
    [IncompatibleEncodingError], not [PartialChunkAlignmentError]. *)
Lemma concat_partial_chunk_counterexample :
  valid_array partial_f64 /\ valid_array full_i32 /\
  partial_chunk 0 partial_f64 1 /\
  concat 0 [partial_f64; full_i32] = Err (IncompatibleEncodingError 0 1 FDtype).
Proof.
  split; [reflexivity|]. split; [reflexivity|].
  split; [|reflexivity]. unfold partial_chunk, chunk_extent; simpl. unfold at_; simpl. lia.
Qed.

(** *** Concatenation: associativity *)

Lemma agree_off_axis_update_r a l1 l2 v :
  agree_off_axis a l1 (update_nth a v l2) = agree_off_axis a l1 l2.
Proof.
  apply eq_true_iff_eq. rewrite !agree_off_axis_spec, length_update_nth.
  split; intros [Hl H]; split; auto; intros i Hi; specialize (H i Hi);
    rewrite ?at_update_other in * by exact Hi; auto.
Qed.

Lemma agree_off_axis_update_l a l1 l2 v :
  agree_off_axis a (update_nth a v l1) l2 = agree_off_axis a l1 l2.
Proof.
  apply eq_true_iff_eq. split; intros H; apply agree_off_axis_sym;
    [rewrite <- (agree_off_axis_update_r a l2 l1 v) | rewrite agree_off_axis_update_r];
    apply agree_off_axis_sym; exact H.
Qed.

Lemma locate_assoc a mA mB mC c :
  a < List.length c ->
  a < List.length (grid_size mA) -> a < List.length (grid_size mB) ->
  locate a [concat_manifests a mA [mA; mB]; mC] c =
  locate a [mA; concat_manifests a mB [mB; mC]] c.
Proof.
  intros Hc HA HB. unfold concat_manifests. cbn [locate map list_sum fold_right grid_size chunk_at].
  rewrite !Nat.add_0_r, !at_update_same by assumption.
  set (gA := at_ a (grid_size mA)). set (gB := at_ a (grid_size mB)).
  set (gC := at_ a (grid_size mC)).
  destruct (Nat.ltb_spec (at_ a c) gA) as [H1|H1].
  - rewrite (proj2 (Nat.ltb_lt _ _)) by lia. reflexivity.
  - rewrite !at_update_same by (rewrite ?length_update_nth; exact Hc).
    destruct (Nat.ltb_spec (at_ a c) (gA + gB)) as [H2|H2].
    + rewrite (proj2 (Nat.ltb_lt (at_ a c - gA) (gB + gC))) by lia.
      rewrite (proj2 (Nat.ltb_lt (at_ a c - gA) gB)) by lia. reflexivity.
    + destruct (Nat.ltb_spec (at_ a c - gA) (gB + gC)) as [H3|H3].
      * rewrite (proj2 (Nat.ltb_ge (at_ a c - gA) gB)) by lia.
        rewrite ?at_update_same by (rewrite ?length_update_nth; exact Hc).
        rewrite ?update_update.
        replace (at_ a c - gA - gB) with (at_ a c - (gA + gB)) by lia. reflexivity.
      * rewrite ?at_update_same by (rewrite ?length_update_nth; exact Hc).
        destruct (Nat.ltb_spec (at_ a c - (gA + gB)) gC); [lia | reflexivity].
Qed.

(** C7 (amended): when A and B have the same chunk size along [a],
    concatenation of three pairwise compatible valid arrays is associative:
    both bracketings succeed and give the same shape, the same encoding and
    the same manifest. *)
Theorem concat_assoc_same_axis_chunk (a : nat) (A B C : ManifestArray) :
  valid_array A -> valid_array B -> valid_array C ->
  concat_compatible a [A; B] -> concat_compatible a [B; C] ->
  concat_compatible a [A; C] ->
  at_ a (chunk_shape (encoding A)) = at_ a (chunk_shape (encoding B)) ->
  exists AB BC L R,
    concat a [A; B] = Ok AB /\ concat a [B; C] = Ok BC /\
    concat a [AB; C] = Ok L /\ concat a [A; BC] = Ok R /\ array_equiv L R.
Proof.
  intros HA HB HC HAB HBC HAC Hc.
  destruct (valid_array_lengths A HA) as [HlA1 HlA2].
  destruct (valid_array_lengths B HB) as [HlB1 HlB2].
  pose proof HAB as HAB'. pose proof HBC as HBC'. pose proof HAC as HAC'.
  cbn [concat_compatible removelast] in HAB', HBC', HAC'.
  destruct HAB' as (EAB & CAB & Ha & FA & SAB).
  destruct HBC' as (_ & CBC & HaB & FB & _).
  destruct HAC' as (EAC & CAC & _ & _ & SAC).
  apply Forall_inv in EAB, EAC, FA, FB, SAB, SAC.
  apply Forall_inv_tail, Forall_inv in CAB, CBC, CAC.
  apply Nat.eqb_eq in FA, FB.
  set (AB := mkArray
        (update_nth a (list_sum (map (fun x => at_ a (shape x)) [A; B])) (shape A))
        (encoding A) (concat_manifests a (manifest A) (map manifest [A; B]))).
  set (BC := mkArray
        (update_nth a (list_sum (map (fun x => at_ a (shape x)) [B; C])) (shape B))
        (encoding B) (concat_manifests a (manifest B) (map manifest [B; C]))).
  assert (E1 : concat a [A; B] = Ok AB) by (apply concat_ok_iff; split; [exact HAB | reflexivity]).
  assert (E2 : concat a [B; C] = Ok BC) by (apply concat_ok_iff; split; [exact HBC | reflexivity]).
  assert (K1 : concat_compatible a [AB; C]).
  { cbn [concat_compatible removelast AB shape encoding manifest].
    split; [constructor; [exact EAC | constructor]|].
    split; [constructor; [apply agree_off_axis_refl | constructor; [exact CAC | constructor]]|].
    split; [exact Ha|].
    split; [constructor; [|constructor]|].
    - unfold last_chunk_full, AB; cbn [shape manifest encoding concat_manifests grid_size map list_sum fold_right].
      rewrite !at_update_same by lia. apply Nat.eqb_eq. rewrite <- Hc in FB. nia.
    - constructor; [cbn [shape]; rewrite agree_off_axis_update_l; exact SAC | constructor]. }
  assert (K2 : concat_compatible a [A; BC]).
  { unfold BC; cbn [concat_compatible removelast shape encoding manifest].
    split; [constructor; [exact EAB | constructor]|].
    split; [constructor; [apply agree_off_axis_refl | constructor; [exact CAB | constructor]]|].
    split; [exact Ha|].
    split; [constructor; [apply Nat.eqb_eq; exact FA | constructor]|].
    constructor; [cbn [shape]; rewrite agree_off_axis_update_r; exact SAB | constructor]. }
  exists AB, BC. do 2 eexists.
  split; [exact E1|]. split; [exact E2|].
  split; [apply concat_ok_iff; split; [exact K1 | reflexivity]|].
  split; [apply concat_ok_iff; split; [exact K2 | reflexivity]|].
  unfold array_equiv, AB, BC; cbn [shape encoding manifest map list_sum fold_right].
  split; [|split; [reflexivity|]].
  - rewrite !at_update_same by lia. rewrite update_update. f_equal. lia.
  - unfold manifest_equiv, concat_manifests; cbn [grid_size chunk_at map list_sum fold_right].
    rewrite !at_update_same by lia. rewrite update_update.
    split; [f_equal; lia|].
    intros c Hin. apply in_grid_coords in Hin as [Hlc _].
    rewrite !length_update_nth in Hlc.
    exact (locate_assoc a (manifest A) (manifest B) (manifest C) c
             ltac:(lia) ltac:(lia) ltac:(lia)).
Qed.

(** C7 (counterexample): three pairwise compatible valid arrays, shape (2,)
    in chunks of 2 followed twice by shape (3,) in chunks of 3.  Grouping on
    the right succeeds, but grouping on the left fails: [concat([A,B])] has
    shape (5,) with chunks of 2 and a partial last chunk, so it cannot be
    followed by C. *)
Lemma concat_assoc_counterexample :
  valid_array f64_by2 /\ valid_array f64_by3 /\
  concat_compatible 0 [f64_by2; f64_by3] /\
  concat_compatible 0 [f64_by3; f64_by3] /\
  (exists AB, concat 0 [f64_by2; f64_by3] = Ok AB /\
              concat 0 [AB; f64_by3] = Err (PartialChunkAlignmentError 0)) /\
  (exists BC R, concat 0 [f64_by3; f64_by3] = Ok BC /\
                concat 0 [f64_by2; BC] = Ok R).
Proof.
  split; [reflexivity|]. split; [reflexivity|].
  split; [cbn; repeat (constructor || reflexivity)|].
  split; [cbn; repeat (constructor || reflexivity)|].
  split.
  - eexists; split; [reflexivity | reflexivity].
  - do 2 eexists; split; [reflexivity | reflexivity].
Qed.

(** *** Slicing *)

Lemma ceil_div_unique s c k r : r < c -> s + c - 1 = c * k + r -> ceil_div s c = k.
Proof. intros Hr H; unfold ceil_div; symmetry; apply (Nat.div_unique _ _ _ r); lia. Qed.

Lemma ceil_div_bounds s c g :
  0 < c -> g = ceil_div s c -> s <= g * c /\ (0 < g -> (g - 1) * c < s).
Proof.
  intros Hc ->; unfold ceil_div.
  pose proof (Nat.div_mod (s + c - 1) c ltac:(lia)) as Hdm.
  pose proof (Nat.mod_upper_bound (s + c - 1) c ltac:(lia)) as Hr.
  set (q := (s + c - 1) / c) in *. set (r := (s + c - 1) mod c) in *.
  split; [nia|]. intros Hq. destruct q as [|q]; [lia|].
  replace (S q - 1) with q by lia. nia.
Qed.

Lemma below_grid_lt s c g j :
  0 < c -> g = ceil_div s c -> j < g -> j * c < s.
Proof.
  intros Hc Hg Hj. destruct (ceil_div_bounds s c g Hc Hg) as [_ H].
  specialize (H ltac:(lia)). assert (j * c <= (g - 1) * c) by (apply Nat.mul_le_mono_r; lia). lia.
Qed.

Lemma chunk_boundary_aligned s c g j :
  0 < c -> g = ceil_div s c -> j <= g -> boundary_aligned s c (Nat.min (j * c) s) = true.
Proof.
  intros Hc Hg Hj. unfold boundary_aligned.
  destruct (Nat.min_spec (j * c) s) as [[_ ->] | [_ ->]].
  - rewrite Nat.Div0.mod_mul. reflexivity.
  - rewrite Nat.eqb_refl, orb_true_r. reflexivity.
Qed.

Lemma ceil_div_chunk_range s c g j0 j1 :
  0 < c -> g = ceil_div s c -> j0 <= j1 <= g ->
  ceil_div (Nat.min (j1 * c) s - Nat.min (j0 * c) s) c = j1 - j0.
Proof.
  intros Hc Hg Hj. destruct (ceil_div_bounds s c g Hc Hg) as [Hs1 Hs2].
  destruct (Nat.le_gt_cases (j1 * c) s) as [H1|H1].
  - rewrite (Nat.min_l (j1 * c)), (Nat.min_l (j0 * c)) by nia.
    apply (ceil_div_unique _ _ _ (c - 1)); [lia|].
    rewrite <- Nat.mul_sub_distr_r. nia.
  - assert (Hj1 : j1 = g).
    { destruct (Nat.lt_ge_cases j1 g) as [Hl|Hl]; [|lia].
      pose proof (below_grid_lt s c g j1 Hc Hg Hl). lia. }
    subst j1. rewrite (Nat.min_r (g * c)) by lia.
    destruct (Nat.lt_ge_cases j0 g) as [H0|H0].
    + pose proof (below_grid_lt s c g j0 Hc Hg H0).
      rewrite Nat.min_l by lia.
      apply (ceil_div_unique _ _ _ (s + c - 1 - g * c)); [lia|].
      specialize (Hs2 ltac:(lia)).
      assert (j0 * c <= g * c) by nia. rewrite Nat.mul_sub_distr_l. nia.
    + replace j0 with g by lia. rewrite Nat.min_r by lia. rewrite Nat.sub_diag.
      apply (ceil_div_unique _ _ _ (c - 1)); lia.
Qed.

Lemma chunk_start_div s c g j0 j1 :
  0 < c -> g = ceil_div s c -> j0 < j1 <= g -> Nat.min (j0 * c) s / c = j0.
Proof.
  intros Hc Hg Hj. pose proof (below_grid_lt s c g j0 Hc Hg ltac:(lia)).
  rewrite Nat.min_l by lia. apply Nat.div_mul; lia.
Qed.

Lemma misaligned_bounds_false shp cs rs i :
  i < List.length rs ->
  boundary_aligned (at_ i shp) (at_ i cs) (fst (nth i rs (0, 0))) = false \/
  boundary_aligned (at_ i shp) (at_ i cs) (snd (nth i rs (0, 0))) = false ->
  slice_bounds_ok shp cs rs = false.
Proof.
  revert shp cs i; induction rs as [|[st sp] rs IH]; intros shp cs i Hi Hb; [simpl in Hi; lia|].
  destruct shp as [|s shp], cs as [|c cs]; try reflexivity.
  destruct i as [|i]; cbn [slice_bounds_ok].
  - unfold at_ in Hb; cbn [nth fst snd] in Hb.
    destruct Hb as [Hb|Hb]; rewrite Hb; rewrite ?andb_false_r; reflexivity.
  - rewrite (IH shp cs i); [apply andb_false_r | simpl in Hi; lia | exact Hb].
Qed.

Lemma slice_bounds_chunk_ranges shp cs gs js :
  geometry_ok shp cs gs = true -> Forall2 (fun j g => fst j <= snd j <= g) js gs ->
  slice_bounds_ok shp cs (chunk_ranges_bounds shp cs js) = true.
Proof.
  intros Hgeo HF; revert shp cs Hgeo.
  induction HF as [|[j0 j1] g js gs Hj HF IH]; intros shp cs Hgeo;
    destruct shp as [|s shp], cs as [|c cs]; try discriminate; [reflexivity|].
  cbn [geometry_ok] in Hgeo. apply andb_true_iff in Hgeo as [Hgeo Hrest].
  apply andb_true_iff in Hgeo as [Hc Hg]. apply Nat.ltb_lt in Hc. apply Nat.eqb_eq in Hg.
  cbn [fst snd] in Hj. cbn [chunk_ranges_bounds chunk_range_bounds slice_bounds_ok].
  rewrite (chunk_boundary_aligned s c g j0), (chunk_boundary_aligned s c g j1),
    (IH shp cs Hrest) by lia.
  assert (Nat.min (j0 * c) s <= Nat.min (j1 * c) s) by (apply Nat.min_le_compat_r; nia).
  assert (Nat.min (j1 * c) s <= s) by apply Nat.le_min_r.
  apply Nat.leb_le in H, H0. rewrite H, H0. reflexivity.
Qed.

Lemma slice_grid_chunk_ranges shp cs gs js :
  geometry_ok shp cs gs = true -> Forall2 (fun j g => fst j <= snd j <= g) js gs ->
  zip_with (fun r c => ceil_div (snd r - fst r) c) (chunk_ranges_bounds shp cs js) cs =
  map (fun j => snd j - fst j) js.
Proof.
  intros Hgeo HF; revert shp cs Hgeo.
  induction HF as [|[j0 j1] g js gs Hj HF IH]; intros shp cs Hgeo;
    destruct shp as [|s shp], cs as [|c cs]; try discriminate; [reflexivity|].
  cbn [geometry_ok] in Hgeo. apply andb_true_iff in Hgeo as [Hgeo Hrest].
  apply andb_true_iff in Hgeo as [Hc Hg]. apply Nat.ltb_lt in Hc. apply Nat.eqb_eq in Hg.
  cbn [fst snd] in Hj. cbn [chunk_ranges_bounds chunk_range_bounds zip_with map fst snd].
  rewrite (IH shp cs Hrest), (ceil_div_chunk_range s c g j0 j1) by lia. reflexivity.
Qed.

Lemma slice_geometry_chunk_ranges shp cs gs js :
  geometry_ok shp cs gs = true -> Forall2 (fun j g => fst j <= snd j <= g) js gs ->
  geometry_ok (map (fun r => snd r - fst r) (chunk_ranges_bounds shp cs js)) cs
    (map (fun j => snd j - fst j) js) = true.
Proof.
  intros Hgeo HF; revert shp cs Hgeo.
  induction HF as [|[j0 j1] g js gs Hj HF IH]; intros shp cs Hgeo;
    destruct shp as [|s shp], cs as [|c cs]; try discriminate; [reflexivity|].
  cbn [geometry_ok] in Hgeo. apply andb_true_iff in Hgeo as [Hgeo Hrest].
  apply andb_true_iff in Hgeo as [Hc Hg]. apply Nat.ltb_lt in Hc. apply Nat.eqb_eq in Hg.
  cbn [fst snd] in Hj. cbn [chunk_ranges_bounds chunk_range_bounds map geometry_ok fst snd].
  rewrite (IH shp cs Hrest), (ceil_div_chunk_range s c g j0 j1) by lia.
  rewrite Nat.eqb_refl. apply Nat.ltb_lt in Hc. rewrite Hc. reflexivity.
Qed.

Lemma slice_origin_chunk_ranges shp cs gs js c' :
  geometry_ok shp cs gs = true -> Forall2 (fun j g => fst j <= snd j <= g) js gs ->
  In c' (grid_coords (map (fun j => snd j - fst j) js)) ->
  zip_with Nat.add c' (zip_with (fun r c => fst r / c) (chunk_ranges_bounds shp cs js) cs) =
  zip_with Nat.add c' (map fst js).
Proof.
  intros Hgeo HF; revert shp cs c' Hgeo.
  induction HF as [|[j0 j1] g js gs Hj HF IH]; intros shp cs c' Hgeo Hin;
    destruct shp as [|s shp], cs as [|c cs]; try discriminate; [reflexivity|].
  cbn [geometry_ok] in Hgeo. apply andb_true_iff in Hgeo as [Hgeo Hrest].
  apply andb_true_iff in Hgeo as [Hc Hg]. apply Nat.ltb_lt in Hc. apply Nat.eqb_eq in Hg.
  cbn [fst snd] in Hj. cbn [map grid_coords fst snd] in Hin.
  apply in_flat_map in Hin as (i & Hi & Hin). apply in_seq in Hi.
  apply in_map_iff in Hin as (c'' & <- & Hin).
  cbn [chunk_ranges_bounds chunk_range_bounds zip_with map fst].
  rewrite (chunk_start_div s c g j0 j1), (IH shp cs c'' Hrest Hin) by lia. reflexivity.
Qed.

(** C8: for a valid array, a range whose start or stop on some axis is not
    aligned to the chunk_shape (neither a multiple of the chunk size nor the
    end of the axis) is rejected with AlignmentError; selecting, on each
    axis, a contiguous range [j0, j1) of whole chunk coordinates succeeds
    and gives a valid array with the same encoding (no re-chunking or
    re-encoding), the element extent of those chunks as shape, the grid
    [j1 - j0] on each axis, and as entries the original ones shifted by
    [j0]. *)
Theorem slice_whole_chunks (x : ManifestArray) :
  valid_array x ->
  (forall rs i, i < List.length rs ->
     boundary_aligned (at_ i (shape x)) (at_ i (chunk_shape (encoding x)))
       (fst (nth i rs (0, 0))) = false \/
     boundary_aligned (at_ i (shape x)) (at_ i (chunk_shape (encoding x)))
       (snd (nth i rs (0, 0))) = false ->
     slice x rs = Err AlignmentError) /\
  (forall js, Forall2 (fun j g => fst j <= snd j <= g) js (grid_size (manifest x)) ->
     exists y,
       slice x (chunk_ranges_bounds (shape x) (chunk_shape (encoding x)) js) = Ok y /\
       valid_array y /\ encoding y = encoding x /\
       shape y = map (fun r => snd r - fst r)
                   (chunk_ranges_bounds (shape x) (chunk_shape (encoding x)) js) /\
       grid_size (manifest y) = map (fun j => snd j - fst j) js /\
       forall c', In c' (grid_coords (grid_size (manifest y))) ->
         chunk_at (manifest y) c' = chunk_at (manifest x) (zip_with Nat.add c' (map fst js))).
Proof.
  intros Hx. split.
  - intros rs i Hi Hb. unfold slice.
    rewrite (misaligned_bounds_false _ _ rs i Hi Hb). reflexivity.
  - intros js HF. unfold valid_array in Hx.
    unfold slice. rewrite (slice_bounds_chunk_ranges _ _ _ js Hx HF). cbn [guard bind].
    eexists; split; [reflexivity|].
    cbn [shape encoding manifest grid_size chunk_at].
    rewrite (slice_grid_chunk_ranges _ _ _ js Hx HF).
    split; [unfold valid_array; cbn [shape encoding manifest grid_size];
            exact (slice_geometry_chunk_ranges _ _ _ js Hx HF)|].
    split; [reflexivity|]. split; [reflexivity|]. split; [reflexivity|].
    intros c' Hin. rewrite (slice_origin_chunk_ranges _ _ _ js c' Hx HF Hin). reflexivity.
Qed.

(** *** Reference keys *)

Lemma char_free_app ch s1 s2 :
  char_free ch (s1 ++ s2)%string = char_free ch s1 && char_free ch s2.
Proof.
  induction s1 as [|a s1 IH]; simpl; [reflexivity|]. rewrite IH, andb_assoc. reflexivity.
Qed.

Lemma char_free_self ch s1 s2 : char_free ch (s1 ++ String ch s2)%string = false.
Proof.
  rewrite char_free_app. simpl. rewrite Ascii.eqb_refl, andb_false_r. reflexivity.
Qed.

(** Splitting at the last separator: the suffixes contain none. *)
Lemma split_last_sep ch v1 v2 k1 k2 :
  char_free ch k1 = true -> char_free ch k2 = true ->
  (v1 ++ String ch k1 = v2 ++ String ch k2)%string -> v1 = v2 /\ k1 = k2.
Proof.
  revert v2; induction v1 as [|a v1 IH]; intros [|b v2] H1 H2 H; simpl in H.
  - injection H as ->. auto.
  - injection H as <- Hk. subst k1. rewrite char_free_self in H1. discriminate.
  - injection H as -> Hk. subst k2. rewrite char_free_self in H2. discriminate.
  - injection H as -> H. destruct (IH v2 H1 H2 H) as [-> ->]. auto.
Qed.

(** Splitting at the first separator: the prefixes contain none. *)
Lemma split_first_sep ch s1 s2 t1 t2 :
  char_free ch s1 = true -> char_free ch s2 = true ->
  (s1 ++ String ch t1 = s2 ++ String ch t2)%string -> s1 = s2 /\ t1 = t2.
Proof.
  revert s2; induction s1 as [|a s1 IH]; intros [|b s2] H1 H2 H; simpl in H.
  - injection H as ->. auto.
  - injection H as <- _. simpl in H2. rewrite Ascii.eqb_refl in H2. discriminate.
  - injection H as -> _. simpl in H1. rewrite Ascii.eqb_refl in H1. discriminate.
  - injection H as -> H. simpl in H1, H2. apply andb_true_iff in H1 as [_ H1].
    apply andb_true_iff in H2 as [_ H2]. destruct (IH s2 H1 H2 H) as [-> ->]. auto.
Qed.

Lemma string_of_uint_dot_free d : char_free "." (NilEmpty.string_of_uint d) = true.
Proof. induction d; simpl; auto. Qed.

Lemma string_of_uint_slash_free d : char_free "/" (NilEmpty.string_of_uint d) = true.
Proof. induction d; simpl; auto. Qed.

Lemma nat_to_string_inj n m : nat_to_string n = nat_to_string m -> n = m.
Proof.
  unfold nat_to_string; intros H. apply DecimalNat.Unsigned.to_uint_inj.
  apply (f_equal NilEmpty.uint_of_string) in H. rewrite !NilEmpty.usu in H.
  injection H; auto.
Qed.

Lemma coord_key_cons n n2 c2 :
  coord_key (n :: n2 :: c2) = (nat_to_string n ++ String "." (coord_key (n2 :: c2)))%string.
Proof. reflexivity. Qed.

Lemma coord_key_slash_free c : char_free "/" (coord_key c) = true.
Proof.
  induction c as [|n c IH]; [reflexivity|].
  destruct c as [|n2 c2]; [apply string_of_uint_slash_free|].
  rewrite coord_key_cons, char_free_app. unfold nat_to_string at 1.
  rewrite string_of_uint_slash_free. simpl. exact IH.
Qed.

Lemma coord_key_inj c c' :
  List.length c = List.length c' -> coord_key c = coord_key c' -> c = c'.
Proof.
  revert c'; induction c as [|n c IH]; intros [|m c'] Hl H; simpl in Hl; try lia;
    [reflexivity|].
  destruct c as [|n2 c2], c' as [|m2 c2']; simpl in Hl; try lia.
  - f_equal. apply nat_to_string_inj. exact H.
  - rewrite !coord_key_cons in H.
    apply split_first_sep in H as [H1 H2]; try apply string_of_uint_dot_free.
    apply nat_to_string_inj in H1. subst m. f_equal. apply IH; [simpl; lia | exact H2].
Qed.

Lemma ref_key_inj v v' c c' :
  ref_key v c = ref_key v' c' -> v = v' /\ coord_key c = coord_key c'.
Proof.
  unfold ref_key; intros H.
  assert (H' : (v ++ String "/" (coord_key c) = v' ++ String "/" (coord_key c'))%string)
    by exact H.
  apply split_last_sep in H'; auto using coord_key_slash_free.
Qed.

Lemma pair_eqb_spec x y : pair_eqb x y = true <-> x = y.
Proof.
  destruct x as [a b], y as [a' b']; unfold pair_eqb; simpl.
  rewrite andb_true_iff, !String.eqb_eq. split; [intros [-> ->]; auto | intros H; injection H; auto].
Qed.

(** *** Round trip of the references, generic in the key *)

Lemma zip_ceil_geometry s c g : geometry_ok s c g = true -> zip_with ceil_div s c = g.
Proof.
  revert c g; induction s as [|s1 s IH]; intros [|c1 c] [|g1 g] H; try discriminate; [reflexivity|].
  cbn [geometry_ok] in H. apply andb_true_iff in H as [H Hr].
  apply andb_true_iff in H as [_ Hg]. apply Nat.eqb_eq in Hg.
  cbn [zip_with]. rewrite (IH c g Hr), Hg. reflexivity.
Qed.

Lemma meta_grid_valid x : valid_array x -> meta_grid (meta_of x) = grid_size (manifest x).
Proof. intros H. apply zip_ceil_geometry. exact H. Qed.

Lemma encoding_of_meta x :
  mkEncoding (meta_dtype (meta_of x)) (meta_codecs (meta_of x)) (meta_fill (meta_of x))
    (meta_chunks (meta_of x)) = encoding x.
Proof. destruct x as [? [] ?]; reflexivity. Qed.

Lemma entry_triple e : entry_of (triple_of e) = e.
Proof. destruct e; reflexivity. Qed.

Lemma grid_coords_same_length gs c c' :
  In c (grid_coords gs) -> In c' (grid_coords gs) -> List.length c' = List.length c.
Proof.
  intros H H'. apply in_grid_coords in H as [H _]. apply in_grid_coords in H' as [H' _]. lia.
Qed.

Section RoundTrip.

Variable K : Type.
Variable key_eqb : K -> K -> bool.
Variable key_of : string -> Coord -> K.

Hypothesis key_eqb_spec : forall k k', key_eqb k k' = true <-> k = k'.
Hypothesis key_of_var_inj : forall v v' c c', key_of v c = key_of v' c' -> v = v'.
Hypothesis key_of_coord_inj :
  forall v c c', List.length c = List.length c' -> key_of v c = key_of v c' -> c = c'.

Lemma lookup_ref_app rs1 rs2 k :
  lookup_ref key_eqb (rs1 ++ rs2) k =
  match lookup_ref key_eqb rs1 k with
  | Some t => Some t
  | None => lookup_ref key_eqb rs2 k
  end.
Proof.
  induction rs1 as [|[k' t] rs1 IH]; simpl; [reflexivity|].
  destruct (key_eqb k k'); [reflexivity | exact IH].
Qed.

Lemma emit_refs_cons vx vars :
  emit_refs key_of (vx :: vars) =
  flat_map (fun c => match chunk_at (manifest (snd vx)) c with
                     | Some e => [(key_of (fst vx) c, triple_of e)]
                     | None => []
                     end) (grid_coords (grid_size (manifest (snd vx))))
  ++ emit_refs key_of vars.
Proof. reflexivity. Qed.

Lemma lookup_block_none v m cs k :
  (forall c, In c cs -> chunk_at m c <> None -> key_of v c <> k) ->
  lookup_ref key_eqb
    (flat_map (fun c => match chunk_at m c with
                        | Some e => [(key_of v c, triple_of e)]
                        | None => []
                        end) cs) k = None.
Proof.
  induction cs as [|c cs IH]; intros H; [reflexivity|].
  cbn [flat_map]. rewrite lookup_ref_app.
  destruct (chunk_at m c) as [e|] eqn:E; cbn [lookup_ref].
  - destruct (key_eqb k (key_of v c)) eqn:Ek.
    + apply key_eqb_spec in Ek. exfalso. apply (H c); [left; reflexivity | congruence | auto].
    + apply IH. intros c' Hc'. apply H. right. exact Hc'.
  - apply IH. intros c' Hc'. apply H. right. exact Hc'.
Qed.

Lemma lookup_block_same v m cs c :
  In c cs -> (forall c', In c' cs -> List.length c' = List.length c) ->
  lookup_ref key_eqb
    (flat_map (fun c => match chunk_at m c with
                        | Some e => [(key_of v c, triple_of e)]
                        | None => []
                        end) cs) (key_of v c) = option_map triple_of (chunk_at m c).
Proof.
  induction cs as [|c0 cs IH]; intros Hin Hl; [destruct Hin|].
  cbn [flat_map]. rewrite lookup_ref_app.
  destruct (list_eq_dec Nat.eq_dec c0 c) as [<-|Hne].
  - destruct (chunk_at m c0) as [e|] eqn:E; cbn [lookup_ref app].
    + rewrite (proj2 (key_eqb_spec _ _) eq_refl). reflexivity.
    + apply lookup_block_none. intros c' Hc' Hp Hk.
      apply key_of_coord_inj in Hk; [subst c'; contradiction | apply Hl; right; exact Hc'].
  - destruct Hin as [Heq|Hin]; [contradiction|].
    destruct (chunk_at m c0) as [e|] eqn:E; cbn [lookup_ref app].
    + destruct (key_eqb (key_of v c) (key_of v c0)) eqn:Ek.
      * apply key_eqb_spec, key_of_coord_inj in Ek; [congruence|].
        symmetry. apply Hl. left. reflexivity.
      * apply IH; [exact Hin | intros c' Hc'; apply Hl; right; exact Hc'].
    + apply IH; [exact Hin | intros c' Hc'; apply Hl; right; exact Hc'].
Qed.

Lemma lookup_emit_other vars v c :
  ~ In v (map fst vars) -> lookup_ref key_eqb (emit_refs key_of vars) (key_of v c) = None.
Proof.
  induction vars as [|vx vars IH]; intros Hv; [reflexivity|].
  rewrite emit_refs_cons, lookup_ref_app, lookup_block_none.
  - apply IH. intros H. apply Hv. right. exact H.
  - intros c' _ _ Hk. apply key_of_var_inj in Hk. apply Hv. left. exact Hk.
Qed.

Lemma lookup_emit vars v x c :
  NoDup (map fst vars) -> In (v, x) vars -> In c (grid_coords (grid_size (manifest x))) ->
  lookup_ref key_eqb (emit_refs key_of vars) (key_of v c) =
  option_map triple_of (chunk_at (manifest x) c).
Proof.
  induction vars as [|[v' x'] vars IH]; intros Hnd Hin Hc; [destruct Hin|].
  cbn [map fst] in Hnd. apply NoDup_cons_iff in Hnd as [Hnot Hnd].
  rewrite emit_refs_cons, lookup_ref_app. cbn [fst snd].
  destruct Hin as [Heq|Hin].
  - injection Heq as -> ->.
    rewrite lookup_block_same by (auto; intros c' Hc'; exact (grid_coords_same_length _ _ _ Hc Hc')).
    destruct (chunk_at (manifest x) c); [reflexivity|].
    apply lookup_emit_other. exact Hnot.
  - rewrite lookup_block_none.
    + apply IH; assumption.
    + intros c' _ _ Hk. apply key_of_var_inj in Hk. subst v'.
      apply Hnot. apply in_map_iff. exists (v, x). auto.
Qed.

Lemma array_of_meta_roundtrip vars v x :
  NoDup (map fst vars) -> In (v, x) vars -> valid_array x ->
  (forall c, In c (grid_coords (grid_size (manifest x))) -> chunk_at (manifest x) c <> None) ->
  exists y, array_of_meta key_eqb key_of (emit_refs key_of vars) v (meta_of x) = Ok y /\
            array_equiv y x.
Proof.
  intros Hnd Hin Hv Hp. unfold array_of_meta. cbv zeta.
  rewrite meta_grid_valid, encoding_of_meta by exact Hv.
  rewrite (proj2 (forallb_forall _ _)).
  2:{ intros c Hc. rewrite (lookup_emit vars v x c Hnd Hin Hc).
      destruct (chunk_at (manifest x) c) eqn:E; [reflexivity|]. exfalso. exact (Hp c Hc E). }
  cbn [guard bind]. unfold construct_array. cbn [meta_shape meta_of grid_size].
  rewrite Hv. eexists; split; [reflexivity|].
  split; [reflexivity|]. split; [reflexivity|].
  split; [reflexivity|]. cbn [grid_size chunk_at manifest]. intros c Hc.
  rewrite (lookup_emit vars v x c Hnd Hin Hc).
  destruct (chunk_at (manifest x) c); [cbn [option_map]; rewrite entry_triple|]; reflexivity.
Qed.

Lemma arrays_of_metas_roundtrip vars vars0 :
  NoDup (map fst vars) -> incl vars0 vars ->
  Forall (fun p => valid_array (snd p)) vars0 ->
  Forall (fun vx => forall c, In c (grid_coords (grid_size (manifest (snd vx)))) ->
                     chunk_at (manifest (snd vx)) c <> None) vars0 ->
  exists xs,
    arrays_of_metas key_eqb key_of (emit_refs key_of vars)
      (map (fun vx => (fst vx, meta_of (snd vx))) vars0) = Ok xs /\
    Forall2 (fun p q => fst p = fst q /\ array_equiv (snd p) (snd q)) xs vars0.
Proof.
  intros Hnd; induction vars0 as [|[v x] vars0 IH]; intros Hincl Hv Hp.
  - exists []. split; [reflexivity | constructor].
  - apply Forall_cons_iff in Hv as [Hv1 Hv]. apply Forall_cons_iff in Hp as [Hp1 Hp].
    destruct (array_of_meta_roundtrip vars v x Hnd (Hincl _ (or_introl eq_refl)) Hv1 Hp1)
      as (y & Hy & Hyx).
    destruct (IH (fun p Hp' => Hincl p (or_intror Hp')) Hv Hp) as (xs & Hxs & HF).
    exists ((v, y) :: xs). cbn [map fst snd arrays_of_metas]. rewrite Hy, Hxs.
    split; [reflexivity|]. constructor; [split; [reflexivity | exact Hyx] | exact HF].
Qed.

Lemma keys_in_grids_roundtrip vars :
  Forall (fun p => valid_array (snd p)) vars ->
  keys_in_grids key_eqb key_of (emit_refs key_of vars)
    (map (fun vx => (fst vx, meta_of (snd vx))) vars) = true.
Proof.
  intros Hv. unfold keys_in_grids. apply forallb_forall. intros [k t] Hr.
  unfold emit_refs in Hr. apply in_flat_map in Hr as ([v x] & Hvx & Hr).
  apply in_flat_map in Hr as (c & Hc & Hr). cbn [fst snd] in Hc, Hr.
  destruct (chunk_at (manifest x) c) as [e|]; [|destruct Hr].
  destruct Hr as [Hr|[]]. injection Hr as Hk Ht. subst k t.
  apply existsb_exists. exists (v, meta_of x). split.
  - apply in_map_iff. exists (v, x). auto.
  - apply existsb_exists. exists c. cbn [fst snd].
    rewrite meta_grid_valid by exact (proj1 (Forall_forall _ _) Hv _ Hvx).
    split; [exact Hc | apply key_eqb_spec; reflexivity].
Qed.

Lemma rebuild_roundtrip ds :
  valid_dataset ds -> all_present ds ->
  exists ds',
    rebuild key_eqb key_of (emit_refs key_of (variables ds))
      (map (fun vx => (fst vx, meta_of (snd vx))) (variables ds))
      (dim_sizes ds) (attrs ds) = Ok ds' /\
    dataset_equiv ds' ds.
Proof.
  intros [Hnd Hv] Hp. unfold rebuild.
  rewrite keys_in_grids_roundtrip by exact Hv. cbn [guard bind].
  destruct (arrays_of_metas_roundtrip (variables ds) (variables ds) Hnd (incl_refl _) Hv Hp)
    as (xs & Hxs & HF).
  rewrite Hxs. eexists; split; [reflexivity|].
  split; [exact HF | split; reflexivity].
Qed.

End RoundTrip.

Lemma rows_of_columns_map (rows : list ((string * string) * RefTriple)) :
  rows_of_columns (map (fun r => fst (fst r)) rows) (map (fun r => snd (fst r)) rows)
    (map (fun r => fst (fst (snd r))) rows) (map (fun r => snd (fst (snd r))) rows)
    (map (fun r => snd (snd r)) rows) = Some rows.
Proof.
  induction rows as [|[[v k] [[p o] l]] rows IH]; simpl; [reflexivity|]. rewrite IH. reflexivity.
Qed.

(** C1 (amended): for a valid dataset in which every grid cell of every
    variable holds a present chunk entry, deserializing its serialization
    gives back an equal dataset (same variables in the same order, each with
    the same shape, encoding and manifest, and the same dimension bindings
    and attributes), under both the nested-mapping and the columnar
    encoding. *)
Theorem serialize_roundtrip_present (ds : VirtualDataset) (E : RefEncoding) :
  valid_dataset ds -> all_present ds ->
  exists ds', deserialize (serialize ds E) E = Ok ds' /\ dataset_equiv ds' ds.
Proof.
  intros Hv Hp. destruct E; cbn [serialize deserialize].
  - unfold deserialize_nested, serialize_nested. cbn [version refs array_meta nested_dims nested_attrs].
    cbn [guard bind ref_version Nat.eqb].
    apply (rebuild_roundtrip string String.eqb ref_key).
    + intros k k'. apply String.eqb_eq.
    + intros v v' c c' H. exact (proj1 (ref_key_inj v v' c c' H)).
    + intros v c c' Hl H. apply coord_key_inj; [exact Hl | exact (proj2 (ref_key_inj v v c c' H))].
    + exact Hv.
    + exact Hp.
  - unfold deserialize_columnar, serialize_columnar.
    cbn [col_variable col_coordinate_key col_path col_offset col_length side_meta side_dims side_attrs].
    rewrite rows_of_columns_map.
    apply (rebuild_roundtrip (string * string) pair_eqb column_key).
    + exact pair_eqb_spec.
    + intros v v' c c' H. unfold column_key in H. injection H as H _. exact H.
    + intros v c c' Hl H. unfold column_key in H. injection H as H.
      apply coord_key_inj; assumption.
    + exact Hv.
    + exact Hp.
Qed.

(** C1 (counterexample): a valid one-variable dataset whose single chunk
    is absent.  The serializer omits the absent chunk, so the keys no longer
    cover the variable's grid and deserialization fails with
    MalformedReferenceError under both encodings. *)
Lemma serialize_roundtrip_counterexample :
  valid_dataset absent_chunk_ds /\
  deserialize (serialize absent_chunk_ds NestedMapping) NestedMapping = Err MalformedReferenceError /\
  deserialize (serialize absent_chunk_ds ColumnarTable) ColumnarTable = Err MalformedReferenceError.
Proof.
  split; [split|split; reflexivity].
  - constructor; [simpl; tauto | constructor].
  - constructor; [reflexivity | constructor].
Qed.

(** ** Witnesses: the theorems applied at concrete inputs *)

Lemma construct_manifest_shape_error_witness :
  construct_manifest [([(-1)%Z], None)] = Err ShapeError /\
  exists man, construct_manifest [([0%Z], None); ([1%Z], None)] = Ok man /\
    forall k, In k [[0%Z]; [1%Z]] <-> in_box k (grid_size man).
Proof.
  split.
  - apply (proj1 (proj2 (construct_manifest_shape_error [([(-1)%Z], None)]))).
    left. exists [(-1)%Z], (-1)%Z. split; [left; reflexivity|]. split; [left; reflexivity | lia].
  - eexists; split; [reflexivity|].
    exact (proj1 (construct_manifest_shape_error [([0%Z], None); ([1%Z], None)]) _ eq_refl).
Defined.

Lemma concat_two_shape_witness :
  exists R, concat 0 [arr4; arr3] = Ok R /\ at_ 0 (shape R) = 7.
Proof.
  destruct (concat_two_shape 0 arr4 arr3 eq_refl eq_refl ltac:(repeat split)
              eq_refl eq_refl eq_refl ltac:(simpl; lia)) as (R & H1 & H2 & _).
  exists R. split; [exact H1|]. rewrite H2. reflexivity.
Defined.

Lemma concat_reindexes_witness :
  exists R, concat 0 [arr4; arr3] = Ok R /\
    In [3] (grid_coords (grid_size (manifest R))) /\
    chunk_at (manifest R) [3] = chunk_at (manifest arr3) [1].
Proof.
  eexists; split; [reflexivity|].
  destruct (proj2 concat_reindexes 0 [arr4; arr3] _
              ltac:(repeat constructor) eq_refl) as [H1 _].
  exact (H1 1 arr3 [1] eq_refl ltac:(simpl; tauto)).
Defined.

Lemma concat_single_identity_witness :
  exists R, concat 0 [arr3] = Ok R /\ array_equiv R arr3.
Proof. apply (concat_single_identity 0 arr3); [reflexivity | simpl; lia]. Defined.

Lemma concat_incompatible_encoding_witness :
  (exists k f x0 y, concat 0 [arr4; arr3; full_i32] = Err (IncompatibleEncodingError 0 k f) /\
     nth_error [arr4; arr3; full_i32] 0 = Some x0 /\
     nth_error [arr4; arr3; full_i32] k = Some y /\
     field_differs f (encoding x0) (encoding y)) /\
  concat 0 [arr4; full_i32] = Err (IncompatibleEncodingError 0 1 FDtype).
Proof.
  split.
  - apply (proj1 concat_incompatible_encoding 0 [arr4; arr3; full_i32]).
    exists 0, 2, arr4, full_i32, FDtype.
    split; [reflexivity|]. split; [reflexivity|]. simpl. discriminate.
  - apply (proj2 concat_incompatible_encoding 0 arr4 full_i32). simpl. discriminate.
Defined.

Lemma concat_partial_chunk_alignment_witness :
  exists k, concat 0 [arr3; arr4] = Err (PartialChunkAlignmentError k).
Proof.
  apply (concat_partial_chunk_alignment 0 [arr3; arr4]).
  - repeat constructor.
  - intros x y Hx Hy.
    destruct Hx as [<-|[<-|[]]]; destruct Hy as [<-|[<-|[]]]; repeat split.
  - left. exists 0, arr3, 1. split; [reflexivity|]. split; [simpl; lia|].
    split; [cbn; lia | cbn; discriminate].
Defined.

Lemma concat_assoc_same_axis_chunk_witness :
  exists AB BC L R,
    concat 0 [arr4; arr4] = Ok AB /\ concat 0 [arr4; arr3] = Ok BC /\
    concat 0 [AB; arr3] = Ok L /\ concat 0 [arr4; BC] = Ok R /\ array_equiv L R.
Proof.
  apply (concat_assoc_same_axis_chunk 0 arr4 arr4 arr3); try reflexivity;
    cbn; repeat (constructor || reflexivity).
Defined.

Lemma slice_whole_chunks_witness :
  slice arr3 [(1, 3)] = Err AlignmentError /\
  exists y, slice arr3 [(2, 3)] = Ok y /\ valid_array y /\
    grid_size (manifest y) = [1] /\ chunk_at (manifest y) [0] = chunk_at (manifest arr3) [1].
Proof.
  destruct (slice_whole_chunks arr3 eq_refl) as [H1 H2]. split.
  - apply (H1 [(1, 3)] 0); [simpl; lia | left; reflexivity].
  - destruct (H2 [(1, 2)] ltac:(constructor; [simpl; lia | constructor]))
      as (y & Hy & Hv & _ & _ & Hg & Hc).
    exists y. split; [exact Hy|]. split; [exact Hv|]. split; [exact Hg|].
    rewrite (Hc [0]); [reflexivity | rewrite Hg; simpl; auto].
Defined.

Lemma serialize_roundtrip_present_witness :
  (exists ds', deserialize (serialize present_ds NestedMapping) NestedMapping = Ok ds' /\
               dataset_equiv ds' present_ds) /\
  (exists ds', deserialize (serialize present_ds ColumnarTable) ColumnarTable = Ok ds' /\
               dataset_equiv ds' present_ds).
Proof.
  assert (Hv : valid_dataset present_ds).
  { split.
    - constructor; [simpl; intros [H|[]]; discriminate | constructor; [simpl; tauto | constructor]].
    - repeat constructor. }
  assert (Hp : all_present present_ds).
  { repeat constructor; intros c Hc; simpl in Hc;
      destruct Hc as [<-|[<-|[]]]; discriminate. }
  split; apply serialize_roundtrip_present; assumption.
Defined.

(** ** Example notebook: the TerraClimate URL list *)

Lemma append_inv_head p s1 s2 : (p ++ s1 = p ++ s2)%string -> s1 = s2.
Proof. induction p as [|a p IH]; simpl; [auto | intros H; injection H; auto]. Qed.

Lemma string_of_uint_underscore_free d : char_free "_" (NilEmpty.string_of_uint d) = true.
Proof. induction d; simpl; auto. Qed.

Lemma terraclimate_url_inj v v' y y' :
  terraclimate_url v y = terraclimate_url v' y' -> v = v' /\ y = y'.
Proof.
  unfold terraclimate_url. intros H. apply append_inv_head in H.
  assert (H' : (v ++ String "_" (nat_to_string y ++ String "." "nc")
                = v' ++ String "_" (nat_to_string y' ++ String "." "nc"))%string)
    by exact H.
  apply split_last_sep in H' as [Hv Hy];
    try (rewrite char_free_app; unfold nat_to_string;
         rewrite string_of_uint_underscore_free; reflexivity).
  apply split_first_sep in Hy as [Hy _]; try apply string_of_uint_dot_free.
  split; [exact Hv | apply nat_to_string_inj; exact Hy].
Qed.

Lemma NoDup_map_injective {A B} (f : A -> B) l :
  (forall x y, f x = f y -> x = y) -> NoDup l -> NoDup (map f l).
Proof.
  intros Hf Hl. induction Hl as [|x l Hx Hl IH]; simpl; constructor; [|exact IH].
  intros Hin. apply in_map_iff in Hin as (y & Hy & Hin). apply Hf in Hy. subst. contradiction.
Qed.

(** The comprehension lists the URLs year by year, each year running
    through all the variables in order: it has [|years| * |vars|] entries,
    and entry [i] is the URL of variable [i mod |vars|] for year
    [i / |vars|]. *)
Theorem combinations_of_order (vars : list string) (years : list nat) :
  List.length (combinations_of vars years) = List.length years * List.length vars /\
  forall i, i < List.length years * List.length vars ->
    nth_error (combinations_of vars years) i =
    Some (terraclimate_url (nth (i mod List.length vars) vars EmptyString)
                           (nth (i / List.length vars) years 0)).
Proof.
  unfold combinations_of. set (n := List.length vars).
  induction years as [|y years IH]; cbn [flat_map List.length]; [split; [reflexivity | lia]|].
  destruct IH as [IHl IHn]. rewrite length_app, length_map, IHl. split; [lia|].
  intros i Hi. destruct (Nat.lt_ge_cases i n) as [Hlt|Hge].
  - rewrite nth_error_app1 by (rewrite length_map; exact Hlt).
    rewrite nth_error_map, (nth_error_nth' _ EmptyString Hlt). cbn [option_map].
    rewrite Nat.mod_small, Nat.div_small by exact Hlt. reflexivity.
  - rewrite nth_error_app2 by (rewrite length_map; exact Hge). rewrite length_map. fold n.
    rewrite (IHn (i - n)) by lia.
    replace i with ((i - n) + 1 * n) at 3 4 by lia.
    rewrite Nat.Div0.mod_add, Nat.div_add by lia.
    rewrite Nat.add_1_r. reflexivity.
Qed.

(** With distinct variable names and distinct years, the comprehension
    produces no URL twice, so no file is processed twice. *)
Theorem combinations_of_nodup (vars : list string) (years : list nat) :
  NoDup vars -> NoDup years -> NoDup (combinations_of vars years).
Proof.
  intros Hv Hy. unfold combinations_of.
  induction Hy as [|y years Hy Hys IH]; cbn [flat_map]; [constructor|].
  apply NoDup_app; [| exact IH |].
  - apply NoDup_map_injective; [|exact Hv].
    intros a b H. exact (proj1 (terraclimate_url_inj a b y y H)).
  - intros u Hu Hu'. apply in_map_iff in Hu as (v & <- & _).
    apply in_flat_map in Hu' as (y' & Hy' & Hu'). apply in_map_iff in Hu' as (v' & Heq & _).
    apply terraclimate_url_inj in Heq as [_ ->]. contradiction.
Qed.

Lemma combinations_of_order_witness :
  nth_error combinations 15 = Some (terraclimate_url "def" 1959).
Proof.
  unfold combinations.
  rewrite (proj2 (combinations_of_order tvars time_list) 15) by (vm_compute; lia).
  reflexivity.
Defined.

Lemma combinations_of_nodup_witness : NoDup combinations.
Proof.
  unfold combinations. apply combinations_of_nodup.
  - unfold tvars.
    repeat (apply NoDup_cons;
            [cbn; intros H; repeat (destruct H as [H|H]; [discriminate|]); exact H|]).
    apply NoDup_nil.
  - unfold time_list, arange. apply NoDup_map_injective; [intros a b; lia | apply seq_NoDup].
Defined.
